(** * Terminai interactive session: a shallow embedding of [src/src/shell.ts]

    Strings are modelled as [list ascii]; JavaScript string operations
    ([trim], [split], [join], [toLowerCase], [startsWith]) are written out
    on them.  The session object [TerminaiShell] becomes a record, and the
    asynchronous control flow of [startInteractiveLoop] / [executeCommand]
    becomes a list of suspended continuations resumed by external events
    (a submitted line, Ctrl+C, a subprocess event, a collaborator reply). *)

From Stdlib Require Import List String Ascii Bool Arith Lia ZArith.
Import ListNotations.

(** ** JavaScript strings *)
Module JsStr.

Definition str := list ascii.

Definition lit (s : string) : str := list_ascii_of_string s.

Definition nl : ascii := ascii_of_nat 10.
Definition sp : ascii := " "%char.

Definition str_eqb (a b : str) : bool :=
  if list_eq_dec ascii_dec a b then true else false.

(** [String.prototype.trim] strips white space and line terminators;
    the ASCII ones are space, tab, LF, VT, FF and CR. *)
Definition is_ws (c : ascii) : bool :=
  let n := nat_of_ascii c in (n =? 32) || ((9 <=? n) && (n <=? 13)).

Fixpoint drop_ws (s : str) : str :=
  match s with
  | [] => []
  | c :: r => if is_ws c then drop_ws r else s
  end.

Definition trim (s : str) : str := rev (drop_ws (rev (drop_ws s))).

(** [s.split(d)] for a one-character separator. *)
Fixpoint split_on (d : ascii) (s : str) : list str :=
  match s with
  | [] => [[]]
  | c :: r =>
      if Ascii.eqb c d then [] :: split_on d r
      else match split_on d r with
           | p :: ps => (c :: p) :: ps
           | [] => [[c]]
           end
  end.

(** [xs.join(d)]. *)
Fixpoint join (d : ascii) (xs : list str) : str :=
  match xs with
  | [] => []
  | [x] => x
  | x :: r => x ++ d :: join d r
  end.

(** [toLowerCase] on ASCII letters. *)
Definition lower_char (c : ascii) : ascii :=
  let n := nat_of_ascii c in
  if (65 <=? n) && (n <=? 90) then ascii_of_nat (n + 32) else c.

Definition to_lower (s : str) : str := map lower_char s.

Fixpoint starts_with (p s : str) : bool :=
  match p, s with
  | [], _ => true
  | a :: p', b :: s' => Ascii.eqb a b && starts_with p' s'
  | _ :: _, [] => false
  end.

(** The text of [s] up to its first occurrence of [d]. *)
Fixpoint take_until (d : ascii) (s : str) : str :=
  match s with
  | [] => []
  | c :: r => if Ascii.eqb c d then [] else c :: take_until d r
  end.

End JsStr.

Import JsStr.

(** ** POSIX paths ([path.isAbsolute], [path.resolve]) and [process.chdir] *)
Module Path.

Definition slash : ascii := "/"%char.

Definition is_absolute (p : str) : bool :=
  match p with
  | c :: _ => Ascii.eqb c slash
  | [] => false
  end.

(** Lexical normalisation of the segments of an absolute path;
    [acc] holds the kept segments, innermost first. *)
Fixpoint norm_segs (acc : list str) (segs : list str) : list str :=
  match segs with
  | [] => acc
  | g :: r =>
      if str_eqb g [] || str_eqb g (lit ".") then norm_segs acc r
      else if str_eqb g (lit "..") then norm_segs (tl acc) r
      else norm_segs (g :: acc) r
  end.

Definition abs_of_segs (segs : list str) : str := slash :: join slash segs.

Definition normalize_abs (p : str) : str :=
  abs_of_segs (rev (norm_segs [] (split_on slash p))).

(** [path.resolve(from, p)] for an absolute [from]. *)
Definition resolve (from p : str) : str :=
  if is_absolute p then normalize_abs p else normalize_abs (from ++ slash :: p).

(** The kernel's walk over an absolute path: every named component must be
    an existing directory ([dirs] lists the normalised directories; the
    root always exists).  [cur] is the current directory, innermost first. *)
Fixpoint walk (dirs : list str) (cur : list str) (segs : list str)
  : option (list str) :=
  match segs with
  | [] => Some cur
  | g :: r =>
      if str_eqb g [] || str_eqb g (lit ".") then walk dirs cur r
      else if str_eqb g (lit "..") then walk dirs (tl cur) r
      else if existsb (str_eqb (abs_of_segs (rev (g :: cur)))) dirs
           then walk dirs (g :: cur) r
           else None
  end.

(** [process.chdir(target)] followed by [process.cwd()], for an absolute
    target: [None] when [chdir] throws. *)
Definition chdir (dirs : list str) (target : str) : option str :=
  match walk dirs [] (split_on slash target) with
  | Some cur => Some (abs_of_segs (rev cur))
  | None => None
  end.

End Path.

Import Path.

(** ** The readline recall buffer and the history file *)
Module History.

(** [addToHistory]: [history.unshift(command)], then
    [if (history.length > 1000) history = history.slice(0, 500)]. *)
Definition addToHistory (h : list str) (command : str) : list str :=
  let h' := command :: h in
  if 1000 <? List.length h' then firstn 500 h' else h'.

(** [saveHistory]: the content written to the history file, [None] when
    nothing is written (empty buffer).
    [[...history].reverse().slice(0, 1000).join('\n') + '\n'] *)
Definition saveHistory (h : list str) : option str :=
  match h with
  | [] => None
  | _ => Some (join nl (firstn 1000 (rev h)) ++ [nl])
  end.

(** [loadHistory]: [file] is the content of the history file if it exists;
    [historyContent.trim().split('\n').filter(l => l.length > 0).reverse()]
    replaces the buffer [h]. *)
Definition loadHistory (file : option str) (h : list str) : list str :=
  match file with
  | None => h
  | Some content =>
      rev (filter (fun l => negb (str_eqb l [])) (split_on nl (trim content)))
  end.

(** A string that does not begin with white space (the empty one included). *)
Definition no_leading_ws (c : str) : bool :=
  match c with
  | x :: _ => negb (is_ws x)
  | [] => true
  end.

(** Node's readline adds every submitted line to its recall buffer
    (library behaviour, [historySize] 30): empty and blank lines and a
    repetition of the newest entry are not added. *)
Definition rl_add_history (h : list str) (line : str) : list str :=
  if str_eqb line [] || str_eqb (trim line) [] then h
  else match h with
       | x :: _ => if str_eqb x line then h
                   else let h' := line :: h in
                        if 30 <? List.length h' then removelast h' else h'
       | [] => [line]
       end.

End History.

Import History.

(** ** The session ([TerminaiShell]) as an event-driven state machine *)
Module Shell.

(** A translation request sent to the collaborator ([translateCommand]):
    the failed command, or the fix request of [handleFailedAiCommand]
    (original prompt, failed suggested command, error text, exit code). *)
Inductive Request :=
| Translate (command : str)
| Fix (originalPrompt failedCommand errorOutput : str) (exitCode : Z).

(** A suspended piece of control flow.  [k] is what happens once the
    [executeCommand] promise of a loop iteration resolves: [Some aib]
    resumes the loop ([aib] says the iteration took the AI-suggested
    branch, after which the loop clears the suggestion context), [None]
    means the promise was already resolved. *)
Inductive Frame :=
| KPrompt                    (* the loop's [rl.question] *)
| KConfirm (originalPrompt failedCommand errorOutput : str) (exitCode : Z)
           (k : option bool) (* [askUserConfirmation] in [handleFailedAiCommand] *)
| KExec (pid : nat) (command : str) (skipAiTranslation : bool)
        (originalPrompt : option str) (errorOutput : str)
        (k : option bool)    (* [executeCommand] awaiting the process *)
| KTranslate (command : str) (k : option bool)  (* [handleFailedCommand] *)
| KFix (originalPrompt : str) (k : option bool). (* [handleFailedAiCommand] *)

Record Session := mkSession {
  currentDirectory : str;
  home : str;                      (* [os.homedir()] *)
  dirs : list str;                 (* the directories of the file system *)
  aiService : bool;                (* [this.aiService !== null] *)
  currentRunningProcess : option nat;
  aiSuggestionContext : option str;  (* its [originalCommand]; [isAiSuggestion] is always true *)
  history : list str;              (* readline's recall buffer, newest first *)
  historyFile : option str;        (* content of the history file *)
  threads : list Frame;
  alive : list nat;                (* spawned processes that have not exited *)
  next_pid : nat;
  spawned : list (nat * str);      (* spawned commands, newest first *)
  killed : list nat;               (* processes sent SIGINT, newest first *)
  requests : list Request;         (* collaborator calls, newest first *)
  errors : list str;               (* lines written by [console.error] *)
  terminated : bool }.

Definition set_cwd s v := mkSession v (home s) (dirs s) (aiService s)
  (currentRunningProcess s) (aiSuggestionContext s) (history s) (historyFile s)
  (threads s) (alive s) (next_pid s) (spawned s) (killed s) (requests s)
  (errors s) (terminated s).
Definition set_running s v := mkSession (currentDirectory s) (home s) (dirs s)
  (aiService s) v (aiSuggestionContext s) (history s) (historyFile s)
  (threads s) (alive s) (next_pid s) (spawned s) (killed s) (requests s)
  (errors s) (terminated s).
Definition set_ctx s v := mkSession (currentDirectory s) (home s) (dirs s)
  (aiService s) (currentRunningProcess s) v (history s) (historyFile s)
  (threads s) (alive s) (next_pid s) (spawned s) (killed s) (requests s)
  (errors s) (terminated s).
Definition set_history s v := mkSession (currentDirectory s) (home s) (dirs s)
  (aiService s) (currentRunningProcess s) (aiSuggestionContext s) v
  (historyFile s) (threads s) (alive s) (next_pid s) (spawned s) (killed s)
  (requests s) (errors s) (terminated s).
Definition set_threads s v := mkSession (currentDirectory s) (home s) (dirs s)
  (aiService s) (currentRunningProcess s) (aiSuggestionContext s) (history s)
  (historyFile s) v (alive s) (next_pid s) (spawned s) (killed s)
  (requests s) (errors s) (terminated s).
Definition set_alive s v := mkSession (currentDirectory s) (home s) (dirs s)
  (aiService s) (currentRunningProcess s) (aiSuggestionContext s) (history s)
  (historyFile s) (threads s) v (next_pid s) (spawned s) (killed s)
  (requests s) (errors s) (terminated s).
Definition set_killed s v := mkSession (currentDirectory s) (home s) (dirs s)
  (aiService s) (currentRunningProcess s) (aiSuggestionContext s) (history s)
  (historyFile s) (threads s) (alive s) (next_pid s) (spawned s) v
  (requests s) (errors s) (terminated s).
Definition set_requests s v := mkSession (currentDirectory s) (home s) (dirs s)
  (aiService s) (currentRunningProcess s) (aiSuggestionContext s) (history s)
  (historyFile s) (threads s) (alive s) (next_pid s) (spawned s) (killed s)
  v (errors s) (terminated s).
Definition set_errors s v := mkSession (currentDirectory s) (home s) (dirs s)
  (aiService s) (currentRunningProcess s) (aiSuggestionContext s) (history s)
  (historyFile s) (threads s) (alive s) (next_pid s) (spawned s) (killed s)
  (requests s) v (terminated s).

(** [spawn]: a fresh process fills the running-process slot. *)
Definition spawn_process s (command : str) (skip : bool) (orig : option str)
  (aib : bool) : Session :=
  let p := next_pid s in
  mkSession (currentDirectory s) (home s) (dirs s) (aiService s) (Some p)
    (aiSuggestionContext s) (history s) (historyFile s)
    (threads s ++ [KExec p command skip orig [] (Some aib)])
    (p :: alive s) (S p) ((p, command) :: spawned s) (killed s) (requests s)
    (errors s) (terminated s).

(** [cleanup] ([saveHistory], [rl.close()]) followed by [resolve()] of the
    loop promise: the session ends. *)
Definition cleanup s : Session :=
  mkSession (currentDirectory s) (home s) (dirs s) (aiService s)
    (currentRunningProcess s) (aiSuggestionContext s) (history s)
    (match saveHistory (history s) with
     | Some f => Some f
     | None => historyFile s
     end)
    (threads s) (alive s) (next_pid s) (spawned s) (killed s) (requests s)
    (errors s) true.

Definition is_question (f : Frame) : bool :=
  match f with
  | KPrompt | KConfirm _ _ _ _ _ => true
  | _ => false
  end.

Definition is_exec (p : nat) (f : Frame) : bool :=
  match f with
  | KExec q _ _ _ _ _ => Nat.eqb q p
  | _ => false
  end.

Definition is_ai_wait (f : Frame) : bool :=
  match f with
  | KTranslate _ _ | KFix _ _ => true
  | _ => false
  end.

(** The first frame satisfying [P], and the others in order. *)
Fixpoint take_first (P : Frame -> bool) (fs : list Frame)
  : option (Frame * list Frame) :=
  match fs with
  | [] => None
  | f :: r =>
      if P f then Some (f, r)
      else match take_first P r with
           | Some (g, r') => Some (g, f :: r')
           | None => None
           end
  end.

(** [promptUser]: [rl.question] registers a callback unless one is
    already pending, in which case readline only redraws the prompt. *)
Definition promptUser s : Session :=
  if terminated s || existsb is_question (threads s) then s
  else set_threads s (threads s ++ [KPrompt]).

(** The loop after [await this.executeCommand(...)] returns:
    the AI branch clears the context, then [promptUser()]. *)
Definition finish s (k : option bool) : Session :=
  match k with
  | None => s
  | Some aib => promptUser (if aib then set_ctx s None else s)
  end.

(** [handleCdCommand]: [parts = command.split(' ')],
    [targetDir = parts[1] || os.homedir()], resolved when relative. *)
Definition cd_target (cwd homedir command : str) : str :=
  let parts := split_on sp command in
  let t := match nth_error parts 1 with
           | Some ((_ :: _) as p) => p
           | _ => homedir
           end in
  if is_absolute t then t else resolve cwd t.

Definition cd_error (targetDir : str) : str :=
  lit "cd: no such file or directory: " ++ targetDir.

Definition handleCdCommand s (command : str) : Session :=
  let t := cd_target (currentDirectory s) (home s) command in
  match chdir (dirs s) t with
  | Some d => set_cwd s d
  | None => set_errors s (cd_error t :: errors s)
  end.

Definition executeCommand s (command : str) (skip : bool) (orig : option str)
  (aib : bool) : Session :=
  if starts_with (lit "cd ") command
  then finish (handleCdCommand s command) (Some aib)
  else spawn_process s command skip orig aib.

(** The callback of the loop's [rl.question]. *)
Definition loop_line s (input : str) : Session :=
  let t := trim input in
  if str_eqb t (lit "exit") || str_eqb t (lit "quit") then cleanup s
  else if str_eqb t [] then promptUser (set_ctx s None)
  else match aiSuggestionContext s with
       | Some o => executeCommand s t true (Some o) true
       | None => executeCommand s t false None false
       end.

Definition is_yes (response : str) : bool :=
  str_eqb response (lit "y") || str_eqb response (lit "yes").

(** The answer to [askUserConfirmation] in [handleFailedAiCommand]. *)
Definition confirm_answer s o f e c (k : option bool) (answer : str) : Session :=
  if is_yes (to_lower (trim answer))
  then set_threads (set_requests s (Fix o f e c :: requests s))
         (threads s ++ [KFix o k])
  else finish s k.

(** The [close] handler of the process [p]. *)
Definition on_close s (p : nat) (code : option Z) : Session :=
  match take_first (is_exec p) (threads s) with
  | Some (KExec _ command skip orig err k, rest) =>
      let s1 := set_running (set_threads s rest) None in
      match code with
      | Some 0%Z => finish s1 k
      | _ =>
          if aiService s1 && negb skip then
            set_threads (set_requests s1 (Translate command :: requests s1))
              (threads s1 ++ [KTranslate command k])
          else match skip, orig with
               | true, Some ((_ :: _) as o) =>
                   let c := match code with Some c => c | None => 1%Z end in
                   if existsb is_question (threads s1) then s1
                   else set_threads s1 (threads s1 ++ [KConfirm o command err c k])
               | _, _ => finish s1 k
               end
      end
  | _ => s
  end.

(** The [error] handler: the slot is cleared and the promise resolved;
    the frame stays for a later [close]. *)
Definition on_error s (p : nat) : Session :=
  match take_first (is_exec p) (threads s) with
  | Some (KExec q command skip orig err k, rest) =>
      let s1 := set_running
                  (set_alive (set_threads s (rest ++ [KExec q command skip orig err None]))
                     (remove Nat.eq_dec p (alive s))) None in
      finish s1 k
  | _ => s
  end.

(** The [exit] handler of a spawned process: the slot is cleared, whatever
    process it holds. *)
Definition on_exit s (p : nat) : Session :=
  if Nat.ltb p (next_pid s)
  then set_running (set_alive s (remove Nat.eq_dec p (alive s))) None
  else s.

Definition add_stderr (p : nat) (data : str) (f : Frame) : Frame :=
  match f with
  | KExec q c sk o e k => if Nat.eqb q p then KExec q c sk o (e ++ data) k else f
  | _ => f
  end.

(** A reply of the collaborator to the oldest pending request; [None] or an
    empty command when the translation fails. *)
Definition on_reply s (r : option str) : Session :=
  match take_first is_ai_wait (threads s) with
  | Some (KTranslate command k, rest) =>
      let s1 := set_threads s rest in
      match r with
      | Some (_ :: _) =>
          finish (set_ctx (set_history s1 (addToHistory (history s1) command))
                    (Some command)) k
      | _ => finish s1 k
      end
  | Some (KFix o k, rest) =>
      let s1 := set_threads s rest in
      match r with
      | Some (_ :: _) => finish (set_ctx s1 (Some o)) k
      | _ => finish s1 k
      end
  | _ => s
  end.

(** The [SIGINT] handler registered on readline. *)
Definition on_sigint s : Session :=
  match currentRunningProcess s with
  | Some p => set_running (set_killed s (p :: killed s)) None
  | None =>
      match aiSuggestionContext s with
      | Some _ => promptUser (set_ctx s None)
      | None => cleanup s
      end
  end.

(** A line submitted to readline: it enters readline's recall buffer, then
    goes to the pending question callback, if any. *)
Definition on_line s (input : str) : Session :=
  let s1 := set_history s (rl_add_history (history s) input) in
  match take_first is_question (threads s1) with
  | Some (KPrompt, rest) => loop_line (set_threads s1 rest) input
  | Some (KConfirm o f e c k, rest) =>
      confirm_answer (set_threads s1 rest) o f e c k input
  | _ => s1
  end.

Inductive Event :=
| Line (input : str)
| Sigint
| Stderr (pid : nat) (data : str)
| Exit (pid : nat) (code : option Z)
| Close (pid : nat) (code : option Z)
| Error (pid : nat)
| AiReply (reply : option str).

Definition step s (e : Event) : Session :=
  if terminated s then s
  else match e with
       | Line input => on_line s input
       | Sigint => on_sigint s
       | Stderr p data => set_threads s (map (add_stderr p data) (threads s))
       | Exit p _ => on_exit s p
       | Close p code => on_close s p code
       | Error p => on_error s p
       | AiReply r => on_reply s r
       end.

Definition run (s : Session) (es : list Event) : Session := fold_left step es s.

(** [start()] after the AI service set-up: [loadHistory()], then the first
    [promptUser()]. *)
Definition start (cwd homedir : str) (ds : list str) (ai : bool)
  (file : option str) : Session :=
  mkSession cwd homedir ds ai None None (loadHistory file []) file [KPrompt]
    [] 0 [] [] [] [] false.

End Shell.

Import Shell.

(** ** Concrete sessions *)
Module Demo.

Definition dirs0 : list str := [lit "/w"; lit "/root"; lit "/tmp"; lit "/w/tmp"].

(** A session in [/w] with the collaborator available and no history file. *)
Definition s0 : Session := start (lit "/w") (lit "/root") dirs0 true None.

(** [foo] failed and the collaborator suggested [ls]: a suggestion is pending. *)
Definition offered : Session :=
  run s0 [Line (lit "foo"); Close 0 (Some 127%Z); AiReply (Some (lit "ls"))].

(** The suggested command failed too: the fix confirmation is pending. *)
Definition fix_offered : Session :=
  run offered [Line (lit "ls"); Close 1 (Some 2%Z)].

(** [sleep 100] is running. *)
Definition busy : Session := step s0 (Line (lit "sleep 100")).


End Demo.

(** ** Tab completion ([completer], [getPathCommands], [getFileCompletions])

    The POSIX branches ([process.platform] other than [win32]).  The file
    system is a parameter: [readdir] lists a directory with file types and
    [listdir] lists a directory with the [fs.statSync] result of every entry
    whose [stat] succeeds; both give [None] when [fs.existsSync] is false
    or the listing throws (the code's [catch] returns no entries then). *)
Module Completion.

(** [s.includes(p)]. *)
Fixpoint includes (p s : str) : bool :=
  starts_with p s || match s with [] => false | _ :: r => includes p r end.

(** [[...new Set(xs)]]: the first occurrence of every element, in order. *)
Definition set_of (xs : list str) : list str :=
  fold_left (fun seen x => if existsb (str_eqb x) seen then seen else seen ++ [x])
    xs [].

Definition is_sep (c : ascii) : bool := Ascii.eqb c slash || Ascii.eqb c "\"%char.

(** [partial.substring(0, i + 1)] and [partial.substring(i + 1)] for
    [i = Math.max(partial.lastIndexOf('/'), partial.lastIndexOf('\\'))];
    [None] when [i = -1]. *)
Fixpoint split_at_last_sep (s : str) : option (str * str) :=
  match s with
  | [] => None
  | c :: r =>
      match split_at_last_sep r with
      | Some (d, p) => Some (c :: d, p)
      | None => if is_sep c then Some ([c], r) else None
      end
  end.

Record Dirent := mkDirent { name : str; isDirectory : bool }.

Record Stat := mkStat { file : str; isFile : bool; mode : Z }.

Definition basicCommands : list str :=
  [lit "ls"; lit "cd"; lit "pwd"; lit "echo"; lit "cat"; lit "grep"; lit "find";
   lit "exit"].

Section Completer.

Variable readdir : str -> option (list Dirent).
Variable listdir : str -> option (list Stat).
Variable PATH : option str.

(** The filter of [getFileCompletions]. *)
Definition keep_entry (searchPattern : str) (entry : Dirent) : bool :=
  let includeHidden := starts_with (lit ".") searchPattern in
  let matchesPattern := starts_with searchPattern (name entry) in
  let notCurrentOrParent :=
    negb (str_eqb (name entry) (lit ".")) && negb (str_eqb (name entry) (lit "..")) in
  matchesPattern && notCurrentOrParent &&
  (includeHidden || negb (starts_with (lit ".") (name entry))).

(** The map of [getFileCompletions]: directories get a trailing [/]. *)
Definition show_entry (entry : Dirent) : str :=
  if isDirectory entry then name entry ++ [slash] else name entry.

Definition getFileCompletions (cwd partial : str) : list str * str :=
  let '(searchPattern, searchDir) :=
    match split_at_last_sep partial with
    | Some (dirPart, pat) =>
        (pat, if is_absolute dirPart then dirPart else resolve cwd dirPart)
    | None => (partial, cwd)
    end in
  match readdir searchDir with
  | None => ([], searchPattern)
  | Some entries =>
      (map show_entry (filter (keep_entry searchPattern) entries), searchPattern)
  end.

(** [stats.isFile() && (stats.mode & parseInt('111', 8))]. *)
Definition is_executable (st : Stat) : bool :=
  isFile st && negb (Z.eqb (Z.land (mode st) 73) 0).

Definition getPathCommands : list str :=
  let pathValue := match PATH with Some v => v | None => [] end in
  let paths := filter (fun p => negb (str_eqb p [])) (split_on ":"%char pathValue) in
  let commands :=
    flat_map (fun dirPath =>
                match listdir dirPath with
                | Some files => map file (filter is_executable files)
                | None => []
                end) paths in
  firstn 50 (set_of commands).

(** [completer]; its [catch] branch is unreachable, both callees catch. *)
Definition completer (cwd line : str) : list str * str :=
  let parts := split_on sp line in
  let lastPart := last parts [] in
  if Nat.eqb (List.length parts) 1 then
    let allCommands := set_of (basicCommands ++ getPathCommands) in
    (filter (starts_with lastPart) allCommands, lastPart)
  else getFileCompletions cwd lastPart.

End Completer.

End Completion.

Import Completion.

(** ** [getShellConfig] *)
Module ShellConfig.

Inductive Platform := Win32 | Darwin | Linux | OtherPlatform.

Record ShellCfg := mkShellCfg { shell : str; args : list str }.

(** [v || d] for an environment variable [v] (unset or empty is falsy). *)
Definition js_or (v : option str) (d : str) : str :=
  match v with
  | Some ((_ :: _) as x) => x
  | _ => d
  end.

Definition fallbackShells : list str := [lit "/bin/zsh"; lit "/bin/bash"; lit "/bin/sh"].

(** The loop over [fallbackShells] with [fs.accessSync]. *)
Fixpoint first_accessible (accessible : str -> bool) (shells : list str) : option str :=
  match shells with
  | [] => None
  | sh :: r => if accessible sh then Some sh else first_accessible accessible r
  end.

Definition getShellConfig (platform : Platform) (SHELL ComSpec : option str)
  (accessible : str -> bool) : ShellCfg :=
  match platform with
  | Win32 =>
      let comSpec := js_or ComSpec (lit "cmd.exe") in
      match SHELL with
      | Some ((_ :: _) as sh) =>
          if includes (lit "powershell") (to_lower sh)
          then mkShellCfg (lit "powershell.exe") [lit "-Command"]
          else mkShellCfg comSpec [lit "/c"]
      | _ => mkShellCfg comSpec [lit "/c"]
      end
  | Darwin | Linux =>
      match SHELL with
      | Some ((_ :: _) as userShell) => mkShellCfg userShell [lit "-c"]
      | _ =>
          match first_accessible accessible fallbackShells with
          | Some sh => mkShellCfg sh [lit "-c"]
          | None => mkShellCfg (lit "/bin/sh") [lit "-c"]
          end
      end
  | OtherPlatform => mkShellCfg (js_or SHELL (lit "/bin/sh")) [lit "-c"]
  end.

End ShellConfig.

Import ShellConfig.

(** ** Environment detection ([detectPythonEnvironment],
    [detectNodeEnvironment], [detectGitEnvironment]) *)
Module Env.

(** [files.has(x)] for the [Set] of the directory's entries. *)
Definition has (files : list str) (x : str) : bool := existsb (str_eqb x) files.

(** [if (v)] on an environment variable. *)
Definition truthy (v : option str) : bool :=
  match v with Some (_ :: _) => true | _ => false end.

(** [path.basename] of a POSIX path. *)
Definition basename (p : str) : str :=
  last (filter (fun g => negb (str_eqb g [])) (split_on slash p)) [].

(** [path.join(dir, name)] for an absolute [dir]. *)
Definition path_join (dir n : str) : str := normalize_abs (dir ++ slash :: n).

Record PythonEnv := mkPythonEnv {
  isVirtualEnv : bool; envType : option str; envName : option str; envPath : option str }.

Definition commonVenvNames : list str := [lit "venv"; lit "env"; lit ".venv"; lit ".env"].

Definition python_project (files : list str) : bool :=
  has files (lit "requirements.txt") || has files (lit "pyproject.toml") ||
  has files (lit "setup.py") || has files (lit "Pipfile").

(** [isDir] is [fs.statSync(p).isDirectory()], [false] when [stat] throws. *)
Definition detectPythonEnvironment (cwd : str) (files : list str)
  (isDir : str -> bool)
  (VIRTUAL_ENV CONDA_DEFAULT_ENV POETRY_ACTIVE PIPENV_ACTIVE : option str)
  : PythonEnv :=
  let pythonEnv :=
    match VIRTUAL_ENV with
    | Some ((_ :: _) as v) => mkPythonEnv true (Some (lit "venv")) (Some (basename v)) (Some v)
    | _ =>
        match CONDA_DEFAULT_ENV with
        | Some ((_ :: _) as c) => mkPythonEnv true (Some (lit "conda")) (Some c) None
        | _ =>
            if truthy POETRY_ACTIVE then mkPythonEnv true (Some (lit "poetry")) None None
            else if truthy PIPENV_ACTIVE then mkPythonEnv true (Some (lit "pipenv")) None None
            else mkPythonEnv false None None None
        end
    end in
  if python_project files then
    if negb (isVirtualEnv pythonEnv) then
      fold_left (fun pe venvName =>
                   if has files venvName then
                     let venvPath := path_join cwd venvName in
                     if isDir venvPath
                     then mkPythonEnv (isVirtualEnv pe) (envType pe) (Some venvName)
                            (Some venvPath)
                     else pe
                   else pe) commonVenvNames pythonEnv
    else pythonEnv
  else pythonEnv.

Record NodeEnv := mkNodeEnv {
  hasNodeModules : bool; hasPackageJson : bool; packageManager : option str }.

Definition detectNodeEnvironment (files : list str) : NodeEnv :=
  let hasPkg := has files (lit "package.json") in
  mkNodeEnv (has files (lit "node_modules")) hasPkg
    (if has files (lit "yarn.lock") then Some (lit "yarn")
     else if has files (lit "pnpm-lock.yaml") then Some (lit "pnpm")
     else if has files (lit "package-lock.json") || hasPkg then Some (lit "npm")
     else None).

(** [s] without its prefix [p], if [s] starts with [p]. *)
Fixpoint strip_prefix (p s : str) : option str :=
  match p, s with
  | [], _ => Some s
  | a :: p', b :: s' => if Ascii.eqb a b then strip_prefix p' s' else None
  | _ :: _, [] => None
  end.

(** The ASCII line terminators, which [.] does not match. *)
Definition is_line_terminator (c : ascii) : bool :=
  let n := nat_of_ascii c in (n =? 10) || (n =? 13).

(** The greedy [(.+)] group: the text up to the end of the line. *)
Fixpoint rest_of_line (s : str) : str :=
  match s with
  | [] => []
  | c :: r => if is_line_terminator c then [] else c :: rest_of_line r
  end.

(** [match[1]] of [s.match(/ref: refs\/heads\/(.+)/)], trying every start
    position from the left. *)
Fixpoint match_ref (s : str) : option str :=
  let here :=
    match strip_prefix (lit "ref: refs/heads/") s with
    | Some rest => match rest_of_line rest with [] => None | cap => Some cap end
    | None => None
    end in
  match here with
  | Some cap => Some cap
  | None => match s with [] => None | _ :: r => match_ref r end
  end.

Record GitEnv := mkGitEnv { isGitRepo : bool; branch : option str }.

(** [gitExists] is [fs.existsSync(.git)]; [branchOutput] the output of
    [git branch --show-current] ([None] when [execSync] throws);
    [headContent] the content of [.git/HEAD] ([None] when unreadable). *)
Definition detectGitEnvironment (gitExists : bool) (branchOutput headContent : option str)
  : GitEnv :=
  if gitExists then
    match branchOutput with
    | Some out => mkGitEnv true (Some (trim out))
    | None =>
        match headContent with
        | Some h =>
            match match_ref h with
            | Some m => mkGitEnv true (Some (trim m))
            | None => mkGitEnv true None
            end
        | None => mkGitEnv true None
        end
    end
  else mkGitEnv false None.

End Env.

Import Env.

(** ** The cleanup in [parseAiResponse] ([src/src/ai-service.ts]) before
    [JSON.parse] *)
Module AiParse.

Definition tick : ascii := "`"%char.

Definition ticks (a b c : ascii) : bool :=
  Ascii.eqb a tick && Ascii.eqb b tick && Ascii.eqb c tick.

(** [s.replace(/```json\n?/g, '')]. *)
Fixpoint strip_json_fences (s : str) : str :=
  match s with
  | a :: ((b :: c :: j :: s' :: o :: n :: r) as t) =>
      if ticks a b c && Ascii.eqb j "j"%char && Ascii.eqb s' "s"%char &&
         Ascii.eqb o "o"%char && Ascii.eqb n "n"%char
      then match r with
           | x :: r' => if Ascii.eqb x nl then strip_json_fences r' else strip_json_fences r
           | [] => []
           end
      else a :: strip_json_fences t
  | a :: t => a :: strip_json_fences t
  | [] => []
  end.

(** [s.replace(/```\n?/g, '')]. *)
Fixpoint strip_fences (s : str) : str :=
  match s with
  | a :: ((b :: c :: r) as t) =>
      if ticks a b c
      then match r with
           | x :: r' => if Ascii.eqb x nl then strip_fences r' else strip_fences r
           | [] => []
           end
      else a :: strip_fences t
  | a :: t => a :: strip_fences t
  | [] => []
  end.

(** The text handed to [JSON.parse]. *)
Definition cleanAiText (responseText : str) : str :=
  strip_fences (strip_json_fences (trim responseText)).

(** Whether [s] contains a fence [```]. *)
Fixpoint has_fence (s : str) : bool :=
  match s with
  | a :: ((b :: c :: _) as t) => ticks a b c || has_fence t
  | _ => false
  end.

End AiParse.

Import AiParse.

(** ** The Gemini key ([ConfigManager], [src/unnamed/part_002])

    Times are in seconds.  [promptForApiKey] asks a question at time [t]
    and arms a [setTimeout] of 60 s whose callback calls [process.exit(1)];
    the timer is never cleared.  Each answer comes [d] seconds after its
    question.  The result is the resolved key with its time, and the
    expiry times of the armed timers. *)
Module Config.

Fixpoint promptForApiKey (t : nat) (answers : list (nat * str))
  : option (str * nat) * list nat :=
  match answers with
  | [] => (None, [t + 60])
  | (d, apiKey) :: rest =>
      let trimmedKey := trim apiKey in
      match trimmedKey with
      | _ :: _ => (Some (trimmedKey, t + d), [t + 60])
      | [] =>
          let '(r, timers) := promptForApiKey (t + d) rest in
          (r, t + 60 :: timers)
      end
  end.

(** The configuration file as the object [JSON.parse] returns for it
    ([None] when the file does not exist); values are strings. *)
Definition Cfg := list (str * str).

Definition geminiApiKey : str := lit "geminiApiKey".

Definition lookup (k : str) (c : Cfg) : option str :=
  match find (fun kv => str_eqb (fst kv) k) c with
  | Some (_, v) => Some v
  | None => None
  end.

(** [config[k] = v]: an existing property keeps its place, a new one is
    appended (the key order [JSON.stringify] writes). *)
Definition set_prop (k v : str) (c : Cfg) : Cfg :=
  if existsb (fun kv => str_eqb (fst kv) k) c
  then map (fun kv => if str_eqb (fst kv) k then (k, v) else kv) c
  else c ++ [(k, v)].

Definition loadSavedApiKey (file : option Cfg) : option str :=
  match file with
  | None => None
  | Some config =>
      match lookup geminiApiKey config with
      | Some ((_ :: _) as k) => Some k
      | _ => None
      end
  end.

Definition saveApiKey (file : option Cfg) (apiKey now : str) : Cfg :=
  let config := match file with Some c => c | None => [] end in
  set_prop (lit "lastUpdated") now (set_prop geminiApiKey apiKey config).

Definition clearSavedApiKey (file : option Cfg) : option Cfg :=
  match file with
  | Some config => Some (filter (fun kv => negb (str_eqb (fst kv) geminiApiKey)) config)
  | None => None
  end.

(** [ensureGeminiApiKey] started at time [t0]: the key, and the armed
    timers. *)
Definition ensureGeminiApiKey (GEMINI_API_KEY : option str) (file : option Cfg)
  (t0 : nat) (answers : list (nat * str)) : option (str * nat) * list nat :=
  match GEMINI_API_KEY with
  | Some ((_ :: _) as envKey) => (Some (envKey, t0), [])
  | _ =>
      match loadSavedApiKey file with
      | Some savedKey => (Some (savedKey, t0), [])
      | None => promptForApiKey t0 answers
      end
  end.

End Config.

Import Config.

(** ** Properties of sessions and file systems *)
Module Inv.

(** The running-process slot holds only a process that has not exited. *)
Definition slot_ok (s : Session) : Prop :=
  match currentRunningProcess s with
  | Some p => In p (alive s)
  | None => True
  end.

(** How a handler moves the slot: it empties it, leaves slot and live
    processes alone, or fills it with a live process. *)
Definition slot_moves (s t : Session) : Prop :=
  currentRunningProcess t = None \/
  (currentRunningProcess t = currentRunningProcess s /\ alive t = alive s) \/
  (exists p, currentRunningProcess t = Some p /\ In p (alive t)).





(** Every directory's parent directory exists (or is the root). *)
Definition parent_closed (ds : list str) : Prop :=
  forall g cur, In (abs_of_segs (rev (g :: cur))) ds ->
  cur = [] \/ In (abs_of_segs (rev cur)) ds.

End Inv.

Import Inv.

(** ** Lemmas on the JavaScript string operations *)

Lemma split_on_head (d : ascii) (s : str) :
  exists ps, split_on d s = take_until d s :: ps.
Proof.
  induction s as [|c s [ps IH]]; simpl.
  - exists []; reflexivity.
  - destruct (Ascii.eqb c d).
    + eexists; reflexivity.
    + rewrite IH; eexists; reflexivity.
Qed.

Lemma split_on_cd (arg : str) :
  split_on sp (lit "cd " ++ arg) = lit "cd" :: split_on sp arg.
Proof. reflexivity. Qed.

Lemma nth_split_cd (arg : str) :
  nth_error (split_on sp (lit "cd " ++ arg)) 1 = Some (take_until sp arg).
Proof.
  rewrite split_on_cd; simpl.
  destruct (split_on_head sp arg) as [ps ->]; reflexivity.
Qed.

Lemma eqb_refl_ascii (c : ascii) : Ascii.eqb c c = true.
Proof. apply Ascii.eqb_eq; reflexivity. Qed.

(** Splitting at a separator that the first piece does not contain. *)
Lemma split_on_app (d : ascii) (x y : str) :
  ~ In d x -> split_on d (x ++ d :: y) = x :: split_on d y.
Proof.
  induction x as [|c x IH]; intros Hx; simpl.
  - rewrite eqb_refl_ascii; reflexivity.
  - assert (Hc : Ascii.eqb c d = false).
    { apply Ascii.eqb_neq; intros ->; apply Hx; left; reflexivity. }
    rewrite Hc, IH; [reflexivity|].
    intros H; apply Hx; right; exact H.
Qed.

Lemma split_on_single (d : ascii) (x : str) :
  ~ In d x -> split_on d x = [x].
Proof.
  induction x as [|c x IH]; intros Hx; simpl; [reflexivity|].
  assert (Hc : Ascii.eqb c d = false).
  { apply Ascii.eqb_neq; intros ->; apply Hx; left; reflexivity. }
  rewrite Hc, IH; [reflexivity|].
  intros H; apply Hx; right; exact H.
Qed.

(** [split] undoes [join] when no piece contains the separator. *)
Lemma split_join (d : ascii) (xs : list str) :
  xs <> [] -> Forall (fun x => ~ In d x) xs -> split_on d (join d xs) = xs.
Proof.
  induction xs as [|x xs IH]; intros Hne Hall; [congruence|].
  inversion Hall as [|? ? Hx Hxs]; subst.
  destruct xs as [|y ys].
  - simpl; apply split_on_single; exact Hx.
  - change (join d (x :: y :: ys)) with (x ++ d :: join d (y :: ys)).
    rewrite split_on_app by exact Hx.
    rewrite IH; [reflexivity | discriminate | exact Hxs].
Qed.

Lemma join_cons (d : ascii) (x : str) (xs : list str) :
  xs <> [] -> join d (x :: xs) = x ++ d :: join d xs.
Proof. destruct xs; [congruence | reflexivity]. Qed.

Lemma join_snoc (d : ascii) (xs : list str) (x : str) :
  xs <> [] -> join d (xs ++ [x]) = join d xs ++ d :: x.
Proof.
  induction xs as [|a xs IH]; intros Hne; [congruence|].
  destruct xs as [|b xs]; [reflexivity|].
  change ((a :: b :: xs) ++ [x]) with (a :: ((b :: xs) ++ [x])).
  rewrite join_cons by (destruct xs; discriminate).
  rewrite IH by discriminate.
  rewrite (join_cons d a (b :: xs)) by discriminate.
  rewrite <- app_assoc; reflexivity.
Qed.

Lemma join_cons_app (d : ascii) (x : str) (xs : list str) :
  exists t, join d (x :: xs) = x ++ t.
Proof.
  destruct xs as [|y ys].
  - exists []; simpl; rewrite app_nil_r; reflexivity.
  - eexists; reflexivity.
Qed.

Lemma drop_ws_keep (x y : str) (c : ascii) :
  is_ws c = false -> drop_ws ((c :: x) ++ y) = (c :: x) ++ y.
Proof. intros H; simpl; rewrite H; reflexivity. Qed.

Lemma drop_ws_nlw (l z : str) :
  l <> [] -> no_leading_ws l = true -> drop_ws (l ++ z) = l ++ z.
Proof.
  destruct l as [|x l]; intros Hne H; [congruence|].
  apply drop_ws_keep; simpl in H; destruct (is_ws x); [discriminate|reflexivity].
Qed.

(** [trim] only removes the final newline of a history file whose first
    line does not begin, and whose last line does not end, with white space. *)
Lemma trim_join (r : list str) :
  r <> [] ->
  hd [] r <> [] -> no_leading_ws (hd [] r) = true ->
  last r [] <> [] -> no_leading_ws (rev (last r [])) = true ->
  trim (join nl r ++ [nl]) = join nl r.
Proof.
  intros Hne Hh1 Hh2 Hl1 Hl2; unfold trim.
  assert (HA : drop_ws (join nl r ++ [nl]) = join nl r ++ [nl]).
  { destruct r as [|c3 r']; [congruence|].
    destruct (join_cons_app nl c3 r') as [t ->].
    rewrite <- app_assoc; apply drop_ws_nlw; assumption. }
  rewrite HA, rev_unit.
  change (drop_ws (nl :: rev (join nl r))) with (drop_ws (rev (join nl r))).
  assert (HC : drop_ws (rev (join nl r)) = rev (join nl r)).
  { destruct (exists_last Hne) as [rs [c1 ->]].
    rewrite last_last in Hl1, Hl2.
    destruct rs as [|a rs].
    - simpl; rewrite <- (app_nil_r (rev c1)).
      apply drop_ws_nlw; [|exact Hl2].
      intros H; apply Hl1; rewrite <- (rev_involutive c1), H; reflexivity.
    - rewrite join_snoc by discriminate.
      rewrite rev_app_distr; simpl; rewrite <- app_assoc.
      apply drop_ws_nlw; [|exact Hl2].
      intros H; apply Hl1; rewrite <- (rev_involutive c1), H; reflexivity. }
  rewrite HC, rev_involutive; reflexivity.
Qed.

Lemma filter_nonempty_id (r : list str) :
  Forall (fun c => c <> []) r -> filter (fun l => negb (str_eqb l [])) r = r.
Proof.
  induction r as [|c r IH]; intros H; [reflexivity|].
  inversion H as [|? ? Hc Hr]; subst; cbn [filter].
  rewrite IH by exact Hr.
  unfold str_eqb; destruct (list_eq_dec ascii_dec c []) as [E|E];
    [contradiction|reflexivity].
Qed.

(** ** HistoryStore *)

(** C6 (counterexample): the buffer [["ls "; "pwd"; "cd /tmp"]] (newest
    first; non-empty, newline-free commands) does not survive a save and a
    load: [trim] on the file content also strips the trailing space of the
    newest command. *)
Lemma C6_roundtrip_counterexample :
  exists f,
    saveHistory [lit "ls "; lit "pwd"; lit "cd /tmp"] = Some f /\
    loadHistory (Some f) [] = [lit "ls"; lit "pwd"; lit "cd /tmp"] /\
    loadHistory (Some f) [] <> [lit "ls "; lit "pwd"; lit "cd /tmp"].
Proof.
  eexists; split; [reflexivity|]; split; [vm_compute; reflexivity|].
  vm_compute; discriminate.
Qed.

(** C6 (amended): for a non-empty buffer of at most 1000 non-empty,
    newline-free commands, newest first, whose newest command does not end
    and whose oldest command does not begin with white space, [saveHistory]
    writes a file from which [loadHistory] rebuilds exactly that buffer
    (one reversal on each side). *)
Theorem C6_history_roundtrip (h : list str) :
  h <> [] -> List.length h <= 1000 ->
  Forall (fun c => c <> [] /\ ~ In nl c) h ->
  no_leading_ws (rev (hd [] h)) = true ->
  no_leading_ws (last h []) = true ->
  forall fresh, exists f, saveHistory h = Some f /\ loadHistory (Some f) fresh = h.
Proof.
  intros Hne Hlen Hall Hnew Hold fresh.
  assert (Hr : rev h <> []).
  { intros E; apply Hne; rewrite <- (rev_involutive h), E; reflexivity. }
  assert (Hall' : Forall (fun c => c <> [] /\ ~ In nl c) (rev h))
    by (apply Forall_rev; exact Hall).
  assert (Hhd : hd [] (rev h) = last h []).
  { destruct (exists_last Hne) as [l [a ->]].
    rewrite rev_unit, last_last; reflexivity. }
  assert (Hlast : last (rev h) [] = hd [] h).
  { destruct h as [|c1 h']; [congruence|].
    simpl rev; rewrite last_last; reflexivity. }
  assert (Hin : forall c, In c (rev h) -> c <> []).
  { intros c Hc; rewrite Forall_forall in Hall'; apply (Hall' c Hc). }
  eexists; split.
  - unfold saveHistory; destruct h; [congruence|reflexivity].
  - unfold loadHistory.
    rewrite firstn_all2 by (rewrite length_rev; exact Hlen).
    rewrite trim_join; try assumption.
    + rewrite split_join; [|exact Hr|].
      * rewrite filter_nonempty_id, rev_involutive; [reflexivity|].
        eapply Forall_impl; [|exact Hall']; intros c [Hc _]; exact Hc.
      * eapply Forall_impl; [|exact Hall']; intros c [_ Hc]; exact Hc.
    + apply Hin; destruct (rev h); [congruence|left; reflexivity].
    + rewrite Hhd; exact Hold.
    + apply Hin; destruct (exists_last Hr) as [l [a E]].
      rewrite E, last_last; apply in_or_app; right; left; reflexivity.
    + rewrite Hlast; exact Hnew.
Qed.

Lemma C6_history_roundtrip_witness :
  exists f,
    saveHistory [lit "ls"; lit "pwd"; lit "cd /tmp"] = Some f /\
    loadHistory (Some f) [] = [lit "ls"; lit "pwd"; lit "cd /tmp"].
Proof.
  apply (C6_history_roundtrip [lit "ls"; lit "pwd"; lit "cd /tmp"]).
  - discriminate.
  - simpl; lia.
  - repeat constructor; try discriminate; vm_compute; intuition discriminate.
  - reflexivity.
  - reflexivity.
Defined.

(** C7: [addToHistory] puts the command in front; the buffer is cut to its
    500 newest entries exactly when the new length exceeds 1000, and is left
    whole when it is at most 1000. *)
Theorem C7_addToHistory_hysteresis (h : list str) (c : str) :
  hd_error (addToHistory h c) = Some c /\
  (1000 < List.length (c :: h) ->
     addToHistory h c = firstn 500 (c :: h) /\
     List.length (addToHistory h c) = 500) /\
  (List.length (c :: h) <= 1000 -> addToHistory h c = c :: h).
Proof.
  unfold addToHistory.
  destruct (Nat.ltb_spec 1000 (List.length (c :: h))) as [Hlt|Hge].
  - split; [reflexivity|]; split.
    + intros _; split; [reflexivity|].
      rewrite length_firstn; lia.
    + intros; lia.
  - split; [reflexivity|]; split.
    + intros; lia.
    + intros _; reflexivity.
Qed.

Lemma C7_addToHistory_hysteresis_witness :
  addToHistory (repeat [] 1000) (lit "ls") = firstn 500 (lit "ls" :: repeat [] 1000) /\
  addToHistory (repeat [] 999) (lit "ls") = lit "ls" :: repeat [] 999.
Proof.
  split.
  - assert (H : 1000 < List.length (lit "ls" :: repeat [] 1000))
      by (rewrite length_cons, repeat_length; lia).
    exact (proj1 (proj1 (proj2 (C7_addToHistory_hysteresis (repeat [] 1000) (lit "ls"))) H)).
  - apply (proj2 (proj2 (C7_addToHistory_hysteresis (repeat [] 999) (lit "ls")))).
    rewrite length_cons, repeat_length; lia.
Defined.

(** ** The directory-change pseudo-command *)

Lemma resolve_absolute (cwd p : str) : is_absolute (resolve cwd p) = true.
Proof.
  unfold resolve, normalize_abs, abs_of_segs.
  destruct (is_absolute p); reflexivity.
Qed.

Lemma cd_target_token (cwd homedir arg : str) :
  cd_target cwd homedir (lit "cd " ++ arg) =
  (let t := match take_until sp arg with [] => homedir | tok => tok end in
   if is_absolute t then t else resolve cwd t).
Proof.
  unfold cd_target; rewrite nth_split_cd.
  destruct (take_until sp arg); reflexivity.
Qed.

(** C10 (counterexample): for [cd  tmp] (argument [" tmp"], which contains a
    space) the text before the first space is empty, yet the target is not
    that text resolved ([/w]) but the home directory [/root]. *)
Lemma C10_double_space_counterexample :
  take_until sp (lit " tmp") = [] /\
  cd_target (lit "/w") (lit "/root") (lit "cd  tmp") = lit "/root" /\
  cd_target (lit "/w") (lit "/root") (lit "cd  tmp")
    <> resolve (lit "/w") (take_until sp (lit " tmp")).
Proof.
  split; [reflexivity|]; split; [vm_compute; reflexivity|].
  vm_compute; discriminate.
Qed.

(** C10 (amended): the target of [cd <arg>] depends only on the text of
    [arg] before its first space; when that text is non-empty it is the
    target (resolved against the working directory when relative) and the
    rest of [arg] is ignored; when it is empty the target is the home
    directory. *)
Theorem C10_cd_first_token (cwd homedir arg : str) :
  (take_until sp arg <> [] ->
   cd_target cwd homedir (lit "cd " ++ arg) =
     (let tok := take_until sp arg in
      if is_absolute tok then tok else resolve cwd tok)) /\
  (take_until sp arg = [] ->
   cd_target cwd homedir (lit "cd " ++ arg) =
     (if is_absolute homedir then homedir else resolve cwd homedir)).
Proof.
  rewrite cd_target_token; split; intros H.
  - destruct (take_until sp arg); [congruence|reflexivity].
  - rewrite H; reflexivity.
Qed.

Lemma C10_cd_first_token_witness :
  cd_target (lit "/w") (lit "/root") (lit "cd " ++ lit "my dir") =
    resolve (lit "/w") (lit "my") /\
  cd_target (lit "/w") (lit "/root") (lit "cd " ++ lit " dir") = lit "/root".
Proof.
  split.
  - apply (proj1 (C10_cd_first_token (lit "/w") (lit "/root") (lit "my dir"))).
    vm_compute; discriminate.
  - apply (proj2 (C10_cd_first_token (lit "/w") (lit "/root") (lit " dir"))).
    reflexivity.
Defined.

(** C5 (counterexample): from [/w], [cd /tmp/../missing] fails and leaves
    the working directory alone, but the message names the argument as
    typed, not the resolved absolute path [/missing]. *)
Lemma C5_unresolved_absolute_counterexample :
  let s := step Demo.s0 (Line (lit "cd /tmp/../missing")) in
  currentDirectory s = lit "/w" /\
  errors s = [cd_error (lit "/tmp/../missing")] /\
  errors s <> [cd_error (resolve (lit "/w") (lit "/tmp/../missing"))].
Proof.
  split; [vm_compute; reflexivity|]; split; [vm_compute; reflexivity|].
  vm_compute; discriminate.
Qed.

(** C5 (amended): when the target of [cd] cannot be entered, the working
    directory is unchanged and one "no such file or directory" message is
    reported naming [targetDir]: an absolute path, which is the first
    argument token (or the home directory) resolved against the working
    directory when that token is relative, and the token exactly as typed
    when it is already absolute. *)
Theorem C5_cd_failure (s : Session) (arg : str) :
  let t := cd_target (currentDirectory s) (home s) (lit "cd " ++ arg) in
  chdir (dirs s) t = None ->
  let s' := handleCdCommand s (lit "cd " ++ arg) in
  currentDirectory s' = currentDirectory s /\
  errors s' = cd_error t :: errors s /\
  is_absolute t = true /\
  (let tok := match take_until sp arg with [] => home s | tok => tok end in
   t = if is_absolute tok then tok else resolve (currentDirectory s) tok).
Proof.
  intros t Hfail; unfold handleCdCommand; fold t; rewrite Hfail.
  split; [reflexivity|]; split; [reflexivity|].
  unfold t; rewrite cd_target_token; cbv zeta.
  generalize (match take_until sp arg with [] => home s | a :: l => a :: l end).
  intros tok; split; [|reflexivity].
  destruct (is_absolute tok) eqn:E; [exact E|apply resolve_absolute].
Qed.

Lemma C5_cd_failure_witness :
  currentDirectory (handleCdCommand Demo.s0 (lit "cd " ++ lit "../missing-dir"))
    = lit "/w" /\
  errors (handleCdCommand Demo.s0 (lit "cd " ++ lit "../missing-dir"))
    = [cd_error (lit "/missing-dir")].
Proof.
  destruct (C5_cd_failure Demo.s0 (lit "../missing-dir")) as [H1 [H2 _]].
  - vm_compute; reflexivity.
  - split; [exact H1|].
    rewrite H2; vm_compute; reflexivity.
Defined.

(** C4 (failing input): the bare line [cd] is trimmed to ["cd"], misses the
    [startsWith('cd ')] test and is spawned as a shell command; the working
    directory is not changed. *)
Lemma C4_bare_cd_spawned :
  let s := step Demo.s0 (Line (lit "cd")) in
  spawned s = [(0, lit "cd")] /\
  currentRunningProcess s = Some 0 /\
  currentDirectory s = currentDirectory Demo.s0.
Proof. vm_compute; repeat split. Qed.

(** ** Session: suggestions, interrupts and the running-process slot *)

Ltac prompt_field := intros; unfold promptUser; destruct (_ || _); reflexivity.

Lemma promptUser_ctx s : aiSuggestionContext (promptUser s) = aiSuggestionContext s.
Proof. prompt_field. Qed.
Lemma promptUser_running s :
  currentRunningProcess (promptUser s) = currentRunningProcess s.
Proof. prompt_field. Qed.
Lemma promptUser_requests s : requests (promptUser s) = requests s.
Proof. prompt_field. Qed.
Lemma promptUser_killed s : killed (promptUser s) = killed s.
Proof. prompt_field. Qed.
Lemma promptUser_terminated s : terminated (promptUser s) = terminated s.
Proof. prompt_field. Qed.

Lemma finish_ctx (s : Session) : aiSuggestionContext (finish s (Some true)) = None.
Proof. unfold finish; rewrite promptUser_ctx; reflexivity. Qed.

Lemma finish_ctx_false s : aiSuggestionContext (finish s (Some false)) = aiSuggestionContext s.
Proof. simpl; rewrite promptUser_ctx; reflexivity. Qed.

Lemma finish_running (s : Session) (k : option bool) :
  currentRunningProcess (finish s k) = currentRunningProcess s.
Proof. destruct k as [[|]|]; simpl; rewrite ?promptUser_running; reflexivity. Qed.

Lemma finish_requests (s : Session) (k : option bool) :
  requests (finish s k) = requests s.
Proof. destruct k as [[|]|]; simpl; rewrite ?promptUser_requests; reflexivity. Qed.


(** C2 (failing input): [sleep 5] is running, Ctrl+C makes the interrupt
    handler kill it, and its [close] event (code [null]: killed by a signal)
    sends the command to the collaborator for translation. *)
Lemma C2_interrupt_translated :
  let s := run Demo.s0 [Line (lit "sleep 5"); Sigint; Close 0 None] in
  killed s = [0] /\ requests s = [Translate (lit "sleep 5")].
Proof. vm_compute; split; reflexivity. Qed.

(** C3 (failing input): the first Ctrl+C is forwarded to the running
    [sleep 100] and empties the slot; the process has not exited (it is
    still alive, no [exit] event) when a second Ctrl+C ends the session. *)
Lemma C3_second_interrupt_terminates :
  let s1 := step Demo.busy Sigint in
  In 0 (alive s1) /\ terminated s1 = false /\
  terminated (step s1 Sigint) = true /\ In 0 (alive (step s1 Sigint)).
Proof. vm_compute; repeat split; auto. Qed.


(** X24: on Ctrl+C, when the running-process slot holds a process, only
    that process is sent the interrupt, the slot is emptied at once and the
    session goes on with its pending frames and suggestion unchanged; when
    the slot is empty and a suggestion is pending, the suggestion is
    cancelled and the session goes on; when the slot is empty and no
    suggestion is pending, the history is saved and the session ends. *)
Theorem X24_sigint_dispatch (s : Session) :
  terminated s = false ->
  (forall p, currentRunningProcess s = Some p ->
     let s' := step s Sigint in
     terminated s' = false /\ killed s' = p :: killed s /\
     currentRunningProcess s' = None /\ threads s' = threads s /\
     aiSuggestionContext s' = aiSuggestionContext s) /\
  (forall o, currentRunningProcess s = None -> aiSuggestionContext s = Some o ->
     let s' := step s Sigint in
     terminated s' = false /\ aiSuggestionContext s' = None /\ killed s' = killed s) /\
  (currentRunningProcess s = None -> aiSuggestionContext s = None ->
     let s' := step s Sigint in
     terminated s' = true /\ killed s' = killed s /\
     historyFile s' = match saveHistory (history s) with
                      | Some f => Some f
                      | None => historyFile s
                      end).
Proof.
  intros Ht; unfold step; rewrite Ht; unfold on_sigint; split; [|split].
  - intros p Hp; rewrite Hp; repeat split; exact Ht.
  - intros o Hp Ho; rewrite Hp, Ho.
    rewrite promptUser_terminated, promptUser_ctx, promptUser_killed.
    repeat split; exact Ht.
  - intros Hp Ho; rewrite Hp, Ho; repeat split.
Qed.

Lemma X24_sigint_dispatch_witness :
  killed (step Demo.busy Sigint) = [0] /\
  terminated (step Demo.busy Sigint) = false /\
  terminated (step Demo.s0 Sigint) = true.
Proof.
  destruct (X24_sigint_dispatch Demo.busy (ltac:(vm_compute; reflexivity)))
    as [Hbusy _].
  destruct (Hbusy 0 (ltac:(vm_compute; reflexivity))) as [Ht1 [Hk _]].
  destruct (X24_sigint_dispatch Demo.s0 (ltac:(vm_compute; reflexivity)))
    as [_ [_ Hidle]].
  destruct (Hidle (ltac:(vm_compute; reflexivity)) (ltac:(vm_compute; reflexivity)))
    as [Ht2 _].
  split; [rewrite Hk; reflexivity|split; [exact Ht1|exact Ht2]].
Defined.

(** C9: while the fix confirmation is pending, the collaborator is asked
    again exactly when the reply, trimmed and lowercased, is [y] or [yes];
    otherwise no request is made and the suggestion context is cleared. *)
Theorem C9_fix_only_on_yes (s : Session) o f e c a rest :
  terminated s = false ->
  take_first is_question (threads s) = Some (KConfirm o f e c (Some true), rest) ->
  let s' := step s (Line a) in
  (requests s' = Fix o f e c :: requests s <-> is_yes (to_lower (trim a)) = true) /\
  (is_yes (to_lower (trim a)) = false ->
     requests s' = requests s /\ aiSuggestionContext s' = None).
Proof.
  intros Hterm Hq; cbv zeta.
  unfold step; rewrite Hterm; unfold on_line.
  change (threads (set_history s (rl_add_history (history s) a))) with (threads s).
  rewrite Hq; cbv iota beta; unfold confirm_answer.
  destruct (is_yes (to_lower (trim a))).
  - split; [split; reflexivity|discriminate].
  - rewrite finish_requests, finish_ctx; split; [|split; reflexivity].
    split; [|discriminate].
    intros H; apply (f_equal (@List.length Request)) in H; simpl in H; lia.
Qed.

Lemma C9_fix_only_on_yes_witness :
  requests (step Demo.fix_offered (Line (lit " No"))) = requests Demo.fix_offered /\
  aiSuggestionContext (step Demo.fix_offered (Line (lit " No"))) = None.
Proof.
  apply (proj2 (C9_fix_only_on_yes Demo.fix_offered (lit "foo") (lit "ls") []
                  2%Z (lit " No") [] (ltac:(vm_compute; reflexivity))
                  (ltac:(vm_compute; reflexivity)))).
  vm_compute; reflexivity.
Defined.

(** How each handler moves the running-process slot. *)
Ltac split_matches :=
  repeat match goal with
         | |- context [match ?x with _ => _ end] => destruct x
         end.




Lemma on_close_running s p code :
  on_close s p code = s \/ currentRunningProcess (on_close s p code) = None.
Proof.
  unfold on_close.
  destruct (take_first (is_exec p) _) as [[fr rest]|]; [|left; reflexivity].
  destruct fr; try (left; reflexivity); right.
  split_matches; rewrite ?finish_running; reflexivity.
Qed.

Lemma on_error_running s p :
  on_error s p = s \/ currentRunningProcess (on_error s p) = None.
Proof.
  unfold on_error.
  destruct (take_first (is_exec p) _) as [[fr rest]|]; [|left; reflexivity].
  destruct fr; try (left; reflexivity); right.
  rewrite finish_running; reflexivity.
Qed.




(** *** Frames of the handlers *)




















(** *** The slot and the execution frames *)











(** *** The suggestion context before the next prompt *)











(** ** Further properties of the session *)

Ltac prompt_field' := intros; unfold promptUser; destruct (_ || _); reflexivity.

Lemma promptUser_alive s : alive (promptUser s) = alive s.
Proof. prompt_field'. Qed.
Lemma promptUser_spawned s : spawned (promptUser s) = spawned s.
Proof. prompt_field'. Qed.
Lemma promptUser_history s : history (promptUser s) = history s.
Proof. prompt_field'. Qed.
Lemma promptUser_historyFile s : historyFile (promptUser s) = historyFile s.
Proof. prompt_field'. Qed.
Lemma promptUser_cwd s : currentDirectory (promptUser s) = currentDirectory s.
Proof. prompt_field'. Qed.

Lemma promptUser_question s :
  terminated s = false -> existsb is_question (threads (promptUser s)) = true.
Proof.
  intros Ht; unfold promptUser; rewrite Ht; simpl.
  destruct (existsb is_question (threads s)) eqn:E; [exact E|].
  simpl; rewrite existsb_app; simpl; rewrite orb_true_r; reflexivity.
Qed.

Lemma finish_alive s k : alive (finish s k) = alive s.
Proof. destruct k as [[|]|]; simpl; rewrite ?promptUser_alive; reflexivity. Qed.
Lemma finish_spawned s k : spawned (finish s k) = spawned s.
Proof. destruct k as [[|]|]; simpl; rewrite ?promptUser_spawned; reflexivity. Qed.
Lemma finish_history s k : history (finish s k) = history s.
Proof. destruct k as [[|]|]; simpl; rewrite ?promptUser_history; reflexivity. Qed.

Lemma slot_moves_ok s t : slot_ok s -> slot_moves s t -> slot_ok t.
Proof.
  unfold slot_ok, slot_moves; intros Hs [H|[[H1 H2]|[p [H1 H2]]]].
  - rewrite H; exact I.
  - rewrite H1, H2; exact Hs.
  - rewrite H1; exact H2.
Qed.

Lemma slot_moves_step s e : slot_moves s (step s e).
Proof.
  unfold slot_moves, step; destruct (terminated s);
    [right; left; split; reflexivity|].
  destruct e as [a| |p data|p c|p c|p|r].
  - unfold on_line.
    destruct (take_first is_question _) as [[fr rest]|];
      [|right; left; split; reflexivity].
    destruct fr; try (right; left; split; reflexivity).
    + unfold loop_line; cbv zeta.
      destruct (_ || _); [right; left; split; reflexivity|].
      destruct (str_eqb _ []);
        [right; left; rewrite promptUser_running, promptUser_alive; split; reflexivity|].
      destruct (aiSuggestionContext _); unfold executeCommand;
        (destruct (starts_with _ _);
         [right; left; rewrite finish_running, finish_alive; unfold handleCdCommand;
          destruct (chdir _ _); split; reflexivity
         |right; right; eexists; split; [reflexivity|left; reflexivity]]).
    + right; left; unfold confirm_answer; destruct (is_yes _);
        [split; reflexivity|rewrite finish_running, finish_alive; split; reflexivity].
  - unfold on_sigint; destruct (currentRunningProcess s) eqn:E; [left; reflexivity|].
    left; destruct (aiSuggestionContext s);
      rewrite ?promptUser_running; exact E.
  - right; left; split; reflexivity.
  - unfold on_exit; destruct (Nat.ltb _ _); [left|right; left; split]; reflexivity.
  - destruct (on_close_running s p c) as [H|H]; [rewrite H|left; exact H].
    right; left; split; reflexivity.
  - destruct (on_error_running s p) as [H|H]; [rewrite H|left; exact H].
    right; left; split; reflexivity.
  - right; left; unfold on_reply.
    destruct (take_first is_ai_wait _) as [[fr rest]|]; [|split; reflexivity].
    destruct fr; try (split; reflexivity);
      split_matches; rewrite ?finish_running, ?finish_alive; split; reflexivity.
Qed.

(** X1: in every session, whatever happens, the running-process slot only
    holds a process that has not exited yet (no [exit] or [error] event), so
    Ctrl+C is never forwarded to a process known to be gone. *)
Theorem X1_slot_holds_live_process cwd homedir ds ai file (es : list Event) :
  slot_ok (run (start cwd homedir ds ai file) es).
Proof.
  unfold run.
  assert (H0 : slot_ok (start cwd homedir ds ai file)) by exact I.
  revert H0; generalize (start cwd homedir ds ai file).
  induction es as [|e es IH]; intros s Hs; simpl; [exact Hs|].
  apply IH, (slot_moves_ok s); [exact Hs|apply slot_moves_step].
Qed.

(** X2: a blank (or whitespace-only) line at the prompt clears the AI
    suggestion context, runs nothing, sends no request and asks again. *)
Theorem X2_blank_line_reprompts s a rest
  (Ht : terminated s = false)
  (Hq : take_first is_question (threads s) = Some (KPrompt, rest))
  (Hb : trim a = []) :
  let t := step s (Line a) in
  aiSuggestionContext t = None /\ spawned t = spawned s /\
  requests t = requests s /\ terminated t = false /\
  existsb is_question (threads t) = true.
Proof.
  cbv zeta; unfold step; rewrite Ht; unfold on_line; cbv zeta.
  change (threads (set_history s (rl_add_history (history s) a))) with (threads s).
  rewrite Hq; unfold loop_line; cbv zeta; rewrite Hb.
  replace (str_eqb [] (lit "exit") || str_eqb [] (lit "quit")) with false
    by reflexivity.
  replace (str_eqb [] []) with true by reflexivity.
  rewrite promptUser_ctx, promptUser_spawned, promptUser_requests,
    promptUser_terminated.
  repeat split; try exact Ht; apply promptUser_question; exact Ht.
Qed.

(** X3: [exit] or [quit] (surrounding whitespace allowed) at the prompt ends
    the session and writes the history file, which includes the [exit] line
    itself since readline recorded it first; nothing is run. *)
Theorem X3_exit_saves_history s a rest
  (Ht : terminated s = false)
  (Hq : take_first is_question (threads s) = Some (KPrompt, rest))
  (He : trim a = lit "exit" \/ trim a = lit "quit") :
  let t := step s (Line a) in
  terminated t = true /\ spawned t = spawned s /\
  history t = rl_add_history (history s) a /\
  historyFile t = match saveHistory (rl_add_history (history s) a) with
                  | Some f => Some f
                  | None => historyFile s
                  end.
Proof.
  cbv zeta; unfold step; rewrite Ht; unfold on_line; cbv zeta.
  change (threads (set_history s (rl_add_history (history s) a))) with (threads s).
  rewrite Hq; unfold loop_line; cbv zeta.
  destruct (str_eqb (trim a) (lit "exit") || str_eqb (trim a) (lit "quit")) eqn:E.
  - repeat split; reflexivity.
  - destruct He as [H|H]; rewrite H in E; vm_compute in E; discriminate E.
Qed.

(** X4: when a command typed by the user closes, the slot is cleared; exit
    code 0 sends nothing to the AI; any other outcome (including a signal)
    sends exactly one translation request for that command when the AI is
    configured, and none when it is not. *)
Theorem X4_user_command_close s p q command orig err k rest code
  (Ht : terminated s = false)
  (Hf : take_first (is_exec p) (threads s) =
        Some (KExec q command false orig err k, rest)) :
  let t := step s (Close p code) in
  currentRunningProcess t = None /\
  (code = Some 0%Z -> requests t = requests s) /\
  (code <> Some 0%Z -> aiService s = true ->
     requests t = Translate command :: requests s /\
     In (KTranslate command k) (threads t)) /\
  (code <> Some 0%Z -> aiService s = false -> requests t = requests s).
Proof.
  cbv zeta; unfold step; rewrite Ht; unfold on_close; rewrite Hf.
  assert (Hnz : forall c, c <> Some 0%Z ->
            match c with Some 0%Z => true | _ => false end = false)
    by (intros [[| |]|] Hc; congruence).
  destruct (match code with Some 0%Z => true | _ => false end) eqn:Ec.
  - assert (code = Some 0%Z) by (destruct code as [[| |]|]; congruence).
    subst code; rewrite finish_running, finish_requests.
    repeat split; intros; try reflexivity; congruence.
  - assert (Hc : code <> Some 0%Z) by (intros ->; discriminate Ec).
    replace (match code with
             | Some 0%Z => finish (set_running (set_threads s rest) None) k
             | _ => if aiService (set_running (set_threads s rest) None) && negb false
                    then _ else _ end)
      with (if aiService s && negb false
            then set_threads
                   (set_requests (set_running (set_threads s rest) None)
                      (Translate command :: requests s))
                   (rest ++ [KTranslate command k])
            else finish (set_running (set_threads s rest) None) k)
      by (destruct code as [[| |]|]; [discriminate Ec| | |]; reflexivity).
    change (negb false) with true; rewrite andb_true_r.
    destruct (aiService s) eqn:Ea.
    + repeat split; intros; try reflexivity; try congruence.
      simpl; apply in_or_app; right; left; reflexivity.
    + rewrite finish_running, finish_requests.
      repeat split; intros; congruence.
Qed.

(** X5: when a command suggested by the AI fails, nothing is sent to the AI
    at that point: the user is asked first whether to request a fix, with the
    exit code ([1] for a signal), unless a question is already pending. *)
Theorem X5_ai_command_failure_asks s p q command o err k rest code
  (Ht : terminated s = false)
  (Hf : take_first (is_exec p) (threads s) =
        Some (KExec q command true (Some o) err k, rest))
  (Ho : o <> [])
  (Hc : code <> Some 0%Z) :
  let t := step s (Close p code) in
  currentRunningProcess t = None /\ requests t = requests s /\
  (existsb is_question rest = false ->
   In (KConfirm o command err (match code with Some c => c | None => 1%Z end) k)
      (threads t)).
Proof.
  cbv zeta; unfold step; rewrite Ht; unfold on_close; rewrite Hf.
  destruct o as [|o0 os]; [contradiction Ho; reflexivity|].
  replace (match code with
           | Some 0%Z => finish (set_running (set_threads s rest) None) k
           | _ => _ end)
    with (if aiService s && negb true then
            set_threads
              (set_requests (set_running (set_threads s rest) None)
                 (Translate command :: requests s))
              (rest ++ [KTranslate command k])
          else
            if existsb is_question rest then set_running (set_threads s rest) None
            else set_threads (set_running (set_threads s rest) None)
                   (rest ++ [KConfirm (o0 :: os) command err
                               (match code with Some c => c | None => 1%Z end) k]))
    by (destruct code as [[| |]|]; [contradiction Hc; reflexivity| | |]; reflexivity).
  rewrite andb_false_r.
  destruct (existsb is_question rest); repeat split; try reflexivity.
  - intros H; discriminate H.
  - intros _; simpl; apply in_or_app; right; left; reflexivity.
Qed.

(** X6: the AI's reply to a translation request: a non-empty command puts the
    failed input at the front of the saved history and makes it the
    suggestion context of the next prompt; an empty or failed reply changes
    neither. *)
Theorem X6_translation_reply s command k rest r
  (Ht : terminated s = false)
  (Hf : take_first is_ai_wait (threads s) = Some (KTranslate command k, rest))
  (Hk : k <> Some true) :
  let t := step s (AiReply r) in
  match r with
  | Some (_ :: _) => aiSuggestionContext t = Some command /\
                     history t = addToHistory (history s) command
  | _ => aiSuggestionContext t = aiSuggestionContext s /\ history t = history s
  end.
Proof.
  cbv zeta; unfold step; rewrite Ht; unfold on_reply; rewrite Hf; cbv zeta.
  destruct k as [[|]|]; [contradiction Hk; reflexivity| |];
    destruct r as [[|x xs]|];
    rewrite ?finish_ctx_false, ?finish_history; split; reflexivity.
Qed.


Lemma X2_blank_line_reprompts_witness :
  let t := step Demo.s0 (Line (lit "   ")) in
  aiSuggestionContext t = None /\ spawned t = spawned Demo.s0 /\
  requests t = requests Demo.s0 /\ terminated t = false /\
  existsb is_question (threads t) = true.
Proof. apply (X2_blank_line_reprompts Demo.s0 (lit "   ") []); reflexivity. Defined.

Lemma X3_exit_saves_history_witness :
  let t := step Demo.s0 (Line (lit " quit")) in
  terminated t = true /\ spawned t = spawned Demo.s0 /\
  history t = rl_add_history (history Demo.s0) (lit " quit") /\
  historyFile t = match saveHistory (rl_add_history (history Demo.s0) (lit " quit")) with
                  | Some f => Some f
                  | None => historyFile Demo.s0
                  end.
Proof.
  apply (X3_exit_saves_history Demo.s0 (lit " quit") []);
    [reflexivity|reflexivity|right; reflexivity].
Defined.

Lemma X4_user_command_close_witness :
  let s := run Demo.s0 [Line (lit "foo")] in
  let t := step s (Close 0 None) in
  currentRunningProcess t = None /\
  (None = Some 0%Z -> requests t = requests s) /\
  (None <> Some 0%Z -> aiService s = true ->
     requests t = Translate (lit "foo") :: requests s /\
     In (KTranslate (lit "foo") (Some false)) (threads t)) /\
  (None <> Some 0%Z -> aiService s = false -> requests t = requests s).
Proof.
  apply (X4_user_command_close (run Demo.s0 [Line (lit "foo")]) 0 0 (lit "foo")
           None [] (Some false) [] None); reflexivity.
Defined.

Lemma X5_ai_command_failure_asks_witness :
  let s := step Demo.offered (Line (lit "ls")) in
  let t := step s (Close 1 (Some 2%Z)) in
  currentRunningProcess t = None /\ requests t = requests s /\
  (existsb is_question [] = false ->
   In (KConfirm (lit "foo") (lit "ls") [] 2%Z (Some true)) (threads t)).
Proof.
  apply (X5_ai_command_failure_asks (step Demo.offered (Line (lit "ls"))) 1 1
           (lit "ls") (lit "foo") [] (Some true) [] (Some 2%Z));
    [reflexivity|reflexivity|discriminate|discriminate].
Defined.

Lemma X6_translation_reply_witness :
  let s := run Demo.s0 [Line (lit "foo"); Close 0 (Some 127%Z)] in
  let t := step s (AiReply (Some (lit "ls"))) in
  aiSuggestionContext t = Some (lit "foo") /\
  history t = addToHistory (history s) (lit "foo").
Proof.
  apply (X6_translation_reply (run Demo.s0 [Line (lit "foo"); Close 0 (Some 127%Z)])
           (lit "foo") (Some false) [] (Some (lit "ls")));
    [reflexivity|reflexivity|discriminate].
Defined.


(** ** Further properties of [cd] and of the history file *)

Lemma str_eqb_true (a b : str) : str_eqb a b = true -> a = b.
Proof. unfold str_eqb; destruct (list_eq_dec ascii_dec a b); congruence. Qed.

(** The walk of [chdir] only visits the root and listed directories. *)
Lemma walk_closed ds segs : parent_closed ds ->
  forall cur cur', cur = [] \/ In (abs_of_segs (rev cur)) ds ->
  walk ds cur segs = Some cur' -> cur' = [] \/ In (abs_of_segs (rev cur')) ds.
Proof.
  intros Hc; induction segs as [|g segs IH]; intros cur cur' Hcur Hw; simpl in Hw.
  - injection Hw as <-; exact Hcur.
  - destruct (str_eqb g [] || str_eqb g ["."%char]); [exact (IH _ _ Hcur Hw)|].
    destruct (str_eqb g ["."%char; "."%char]).
    + apply (IH (tl cur)); [|exact Hw].
      destruct cur as [|c cur]; [left; reflexivity|].
      destruct Hcur as [E|Hin]; [discriminate E|exact (Hc c cur Hin)].
    + destruct (existsb _ ds) eqn:E; [|discriminate Hw].
      apply (IH (g :: cur)); [|exact Hw].
      right; apply existsb_exists in E as [x [Hx Ex]].
      apply str_eqb_true in Ex; simpl rev; rewrite Ex; exact Hx.
Qed.

Lemma parent_closed_w : parent_closed [lit "/w"].
Proof.
  intros g cur [H|[]].
  destruct cur as [|c cur]; [left; reflexivity|exfalso].
  unfold abs_of_segs in H; injection H as H.
  change (rev (g :: c :: cur)) with ((rev cur ++ [c]) ++ [g]) in H.
  rewrite join_snoc in H by (destruct (rev cur); discriminate).
  assert (Hin : In slash (join slash (rev cur ++ [c]) ++ slash :: g))
    by (apply in_or_app; right; left; reflexivity).
  rewrite <- H in Hin; simpl in Hin; destruct Hin as [E|[]]; discriminate E.
Qed.

Lemma hd_skipn (h : list str) n : hd [] (skipn n h) = nth n h [].
Proof.
  revert n; induction h as [|x h IH]; intros [|n]; simpl; auto.
Qed.

Lemma last_skipn (h : list str) n :
  n < List.length h -> last (skipn n h) [] = last h [].
Proof.
  revert n; induction h as [|x h IH]; intros [|n] Hn; simpl in Hn; try lia.
  - reflexivity.
  - simpl skipn; rewrite IH by lia.
    destruct h; [simpl in Hn; lia|reflexivity].
Qed.

(** Loading a file written from the reversed buffer [k] restores [k]. *)
Lemma load_join_rev (k : list str) fresh :
  k <> [] ->
  Forall (fun c => c <> [] /\ ~ In nl c) k ->
  no_leading_ws (rev (hd [] k)) = true ->
  no_leading_ws (last k []) = true ->
  loadHistory (Some (join nl (rev k) ++ [nl])) fresh = k.
Proof.
  intros Hne Hall Hnew Hold.
  assert (Hr : rev k <> []).
  { intros E; apply Hne; rewrite <- (rev_involutive k), E; reflexivity. }
  assert (Hall' : Forall (fun c => c <> [] /\ ~ In nl c) (rev k))
    by (apply Forall_rev; exact Hall).
  assert (Hhd : hd [] (rev k) = last k []).
  { destruct (exists_last Hne) as [l [a ->]].
    rewrite rev_unit, last_last; reflexivity. }
  assert (Hlast : last (rev k) [] = hd [] k).
  { destruct k as [|c1 k']; [congruence|].
    simpl rev; rewrite last_last; reflexivity. }
  assert (Hin : forall c, In c (rev k) -> c <> []).
  { intros c Hc; rewrite Forall_forall in Hall'; apply (Hall' c Hc). }
  unfold loadHistory; rewrite trim_join; try assumption.
  - rewrite split_join; [|exact Hr|].
    + rewrite filter_nonempty_id, rev_involutive; [reflexivity|].
      eapply Forall_impl; [|exact Hall']; intros c [Hc _]; exact Hc.
    + eapply Forall_impl; [|exact Hall']; intros c [_ Hc]; exact Hc.
  - apply Hin; destruct (rev k); [congruence|left; reflexivity].
  - rewrite Hhd; exact Hold.
  - apply Hin; destruct (exists_last Hr) as [l [a E]].
    rewrite E, last_last; apply in_or_app; right; left; reflexivity.
  - rewrite Hlast; exact Hnew.
Qed.

(** X8: when every listed directory's parent is listed too, a [cd] either
    fails (the directory is unchanged) or lands on the root or on an
    existing directory, never on a path that only resolves lexically. *)
Theorem X8_cd_lands_in_directory s command :
  parent_closed (dirs s) ->
  let d := currentDirectory (handleCdCommand s command) in
  d = currentDirectory s \/ d = lit "/" \/ In d (dirs s).
Proof.
  intros Hc; cbv zeta; unfold handleCdCommand, chdir; cbv zeta.
  destruct (walk (dirs s) [] _) as [cur|] eqn:W; [right|left; reflexivity].
  simpl currentDirectory.
  destruct (walk_closed _ _ Hc [] cur (or_introl eq_refl) W) as [->|Hin];
    [left; reflexivity|right; exact Hin].
Qed.

Lemma X8_cd_lands_in_directory_witness :
  let s := start (lit "/w") (lit "/root") [lit "/w"] true None in
  let d := currentDirectory (handleCdCommand s (lit "cd ..")) in
  d = currentDirectory s \/ d = lit "/" \/ In d (dirs s).
Proof.
  apply (X8_cd_lands_in_directory (start (lit "/w") (lit "/root") [lit "/w"] true None)
           (lit "cd ..")).
  exact parent_closed_w.
Defined.

(** X9: with more than 1000 commands in the buffer (newest first),
    [saveHistory] keeps the 1000 OLDEST ones ([reverse().slice(0, 1000)]),
    not the newest as its comment says: loading the file gives the buffer
    without its [length - 1000] newest commands. *)
Theorem X9_save_keeps_oldest (h : list str) :
  1000 < List.length h ->
  Forall (fun c => c <> [] /\ ~ In nl c) h ->
  no_leading_ws (rev (nth (List.length h - 1000) h [])) = true ->
  no_leading_ws (last h []) = true ->
  forall fresh, exists f, saveHistory h = Some f /\
    loadHistory (Some f) fresh = skipn (List.length h - 1000) h.
Proof.
  intros Hlen Hall Hnew Hold fresh.
  eexists; split.
  - unfold saveHistory; destruct h; [simpl in Hlen; lia|reflexivity].
  - rewrite firstn_rev.
    apply load_join_rev.
    + intros E; apply (f_equal (@List.length str)) in E.
      rewrite length_skipn in E; simpl in E; lia.
    + rewrite <- (firstn_skipn (List.length h - 1000) h) in Hall.
      apply Forall_app in Hall; exact (proj2 Hall).
    + rewrite hd_skipn; exact Hnew.
    + rewrite last_skipn by lia; exact Hold.
Qed.

Lemma X9_save_keeps_oldest_witness :
  exists f, saveHistory (lit "new" :: repeat (lit "ls") 1000) = Some f /\
    loadHistory (Some f) [] =
      skipn (List.length (lit "new" :: repeat (lit "ls") 1000) - 1000)
        (lit "new" :: repeat (lit "ls") 1000).
Proof.
  apply (X9_save_keeps_oldest (lit "new" :: repeat (lit "ls") 1000)).
  - rewrite length_cons, repeat_length; lia.
  - constructor; [split; [discriminate|vm_compute; intuition discriminate]|].
    apply Forall_forall; intros x Hx; apply repeat_spec in Hx; subst x.
    split; [discriminate|vm_compute; intuition discriminate].
  - vm_compute; reflexivity.
  - vm_compute; reflexivity.
Defined.

(** ** Properties of tab completion *)

Lemma str_eqb_refl (a : str) : str_eqb a a = true.
Proof. unfold str_eqb; destruct (list_eq_dec ascii_dec a a); congruence. Qed.

Lemma existsb_str_eqb (x : str) (l : list str) : existsb (str_eqb x) l = true <-> In x l.
Proof.
  rewrite existsb_exists; split.
  - intros [y [Hy E]]; apply str_eqb_true in E; subst y; exact Hy.
  - intros H; exists x; split; [exact H|apply str_eqb_refl].
Qed.

Lemma set_of_fold (xs seen : list str) :
  NoDup seen ->
  let r := fold_left (fun seen x => if existsb (str_eqb x) seen then seen else seen ++ [x])
             xs seen in
  NoDup r /\ (forall y, In y r <-> In y seen \/ In y xs).
Proof.
  revert seen; induction xs as [|x xs IH]; intros seen Hs; cbv zeta; simpl.
  - split; [exact Hs|intros y; tauto].
  - destruct (existsb (str_eqb x) seen) eqn:E.
    + apply existsb_str_eqb in E.
      destruct (IH seen Hs) as [H1 H2]; split; [exact H1|].
      intros y; rewrite H2; split; [tauto|].
      intros [H|[<-|H]]; tauto.
    + assert (Hn : ~ In x seen) by (intros H; apply existsb_str_eqb in H; congruence).
      assert (Hs' : NoDup (seen ++ [x])).
      { apply NoDup_app; [exact Hs|constructor; [intros []|constructor]|].
        intros y Hy [<-|[]]; contradiction. }
      destruct (IH _ Hs') as [H1 H2]; split; [exact H1|].
      intros y; rewrite H2, in_app_iff; simpl; tauto.
Qed.

Lemma set_of_spec (xs : list str) :
  NoDup (set_of xs) /\ (forall y, In y (set_of xs) <-> In y xs).
Proof.
  destruct (set_of_fold xs [] (NoDup_nil _)) as [H1 H2].
  split; [exact H1|intros y; unfold set_of; rewrite H2; simpl; tauto].
Qed.

Lemma in_firstn' {A} n (l : list A) x : In x (firstn n l) -> In x l.
Proof.
  intros H; rewrite <- (firstn_skipn n l); apply in_or_app; left; exact H.
Qed.

Lemma NoDup_firstn' {A} n (l : list A) : NoDup l -> NoDup (firstn n l).
Proof.
  revert n; induction l as [|x l IH]; intros [|n] H; simpl;
    [constructor|constructor|constructor|].
  inversion H as [|? ? Hx Hl]; subst; constructor.
  - intros Hin; apply Hx, (in_firstn' n); exact Hin.
  - apply IH; exact Hl.
Qed.

Lemma starts_with_app (p s x : str) :
  starts_with p s = true -> starts_with p (s ++ x) = true.
Proof.
  revert s; induction p as [|a p IH]; intros [|b s] H; simpl in *; try reflexivity;
    try discriminate.
  apply andb_prop in H as [H1 H2]; rewrite H1, (IH s H2); reflexivity.
Qed.

Lemma split_at_last_sep_some (s d p : str) :
  split_at_last_sep s = Some (d, p) -> s = d ++ p /\ forall c, In c p -> is_sep c = false.
Proof.
  revert d p; induction s as [|c s IH]; intros d p H; simpl in H; [discriminate|].
  destruct (split_at_last_sep s) as [[d' p']|] eqn:E.
  - injection H as <- <-; destruct (IH d' p' eq_refl) as [-> Hp].
    split; [reflexivity|exact Hp].
  - destruct (is_sep c) eqn:Ec; [|discriminate].
    injection H as <- <-; split; [reflexivity|].
    clear IH; induction s as [|c' s IHs]; intros x Hx; [destruct Hx|].
    simpl in E; destruct (split_at_last_sep s) as [[]|]; [discriminate|].
    destruct (is_sep c') eqn:Ec'; [discriminate|].
    destruct Hx as [<-|Hx]; [exact Ec'|exact (IHs eq_refl x Hx)].
Qed.

Lemma split_at_last_sep_none (s : str) :
  split_at_last_sep s = None -> forall c, In c s -> is_sep c = false.
Proof.
  induction s as [|c s IH]; intros H x Hx; [destruct Hx|].
  simpl in H; destruct (split_at_last_sep s) as [[]|]; [discriminate|].
  destruct (is_sep c) eqn:Ec; [discriminate|].
  destruct Hx as [<-|Hx]; [exact Ec|exact (IH eq_refl x Hx)].
Qed.

Lemma split_at_last_sep_dir (s d p : str) :
  split_at_last_sep s = Some (d, p) -> exists d' c, d = d' ++ [c] /\ is_sep c = true.
Proof.
  revert d p; induction s as [|c s IH]; intros d p H; simpl in H; [discriminate|].
  destruct (split_at_last_sep s) as [[d0 p0]|] eqn:E.
  - injection H as <- <-; destruct (IH d0 p0 eq_refl) as [d' [c' [-> Hc]]].
    exists (c :: d'), c'; split; [reflexivity|exact Hc].
  - destruct (is_sep c) eqn:Ec; [|discriminate].
    injection H as <- <-; exists [], c; split; [reflexivity|exact Ec].
Qed.

Lemma keep_entry_iff (pat : str) (e : Dirent) :
  keep_entry pat e = true <->
  starts_with pat (name e) = true /\ name e <> lit "." /\ name e <> lit ".." /\
  (starts_with (lit ".") pat = false -> starts_with (lit ".") (name e) = false).
Proof.
  unfold keep_entry; cbv zeta; split.
  - intros Hk; apply andb_prop in Hk as [Hk Hh]; apply andb_prop in Hk as [Hm Hnc].
    apply andb_prop in Hnc as [Hn1 Hn2].
    split; [exact Hm|split; [|split]].
    + intros E; rewrite E in Hn1; discriminate Hn1.
    + intros E; rewrite E in Hn2; discriminate Hn2.
    + intros Hp; rewrite Hp in Hh; apply negb_true_iff in Hh; exact Hh.
  - intros (Hm & H1 & H2 & Hh); rewrite Hm.
    destruct (str_eqb (name e) (lit ".")) eqn:E1;
      [apply str_eqb_true in E1; contradiction|].
    destruct (str_eqb (name e) (lit "..")) eqn:E2;
      [apply str_eqb_true in E2; contradiction|].
    destruct (starts_with (lit ".") pat) eqn:Ep; [reflexivity|].
    rewrite (Hh eq_refl); reflexivity.
Qed.

Lemma completion_entries_iff (pat : str) (es : list Dirent) h :
  In h (map show_entry (filter (keep_entry pat) es)) <->
  exists e, In e es /\ h = show_entry e /\
    starts_with pat (name e) = true /\ name e <> lit "." /\ name e <> lit ".." /\
    (starts_with (lit ".") pat = false -> starts_with (lit ".") (name e) = false).
Proof.
  rewrite in_map_iff; split.
  - intros [e [<- He]]; apply filter_In in He as [He Hk].
    exists e; split; [exact He|split; [reflexivity|apply keep_entry_iff, Hk]].
  - intros [e [He [-> Hk]]]; exists e; split; [reflexivity|].
    apply filter_In; split; [exact He|apply keep_entry_iff, Hk].
Qed.

(** X10: [getFileCompletions] splits [partial] after its last [/] or [\]
    into a directory part and the pattern it returns; it lists the
    directory part (resolved against the current directory when relative),
    or the current directory when there is none, and answers exactly the
    entries of that directory whose names start with the pattern, are
    neither [.] nor [..], and are not hidden unless the pattern starts with
    a dot, each shown by [show_entry] (directories with a trailing [/]);
    nothing when the directory cannot be read. *)
Theorem X10_file_completions readdir cwd partial :
  let '(hits, pat) := getFileCompletions readdir cwd partial in
  exists dirPart,
    partial = dirPart ++ pat /\ (forall c, In c pat -> is_sep c = false) /\
    (dirPart = [] \/ exists d c, dirPart = d ++ [c] /\ is_sep c = true) /\
    match readdir (match dirPart with
                   | [] => cwd
                   | _ => if is_absolute dirPart then dirPart else resolve cwd dirPart
                   end) with
    | None => hits = []
    | Some es => forall h, In h hits <->
        exists e, In e es /\ h = show_entry e /\
          starts_with pat (name e) = true /\ name e <> lit "." /\ name e <> lit ".." /\
          (starts_with (lit ".") pat = false -> starts_with (lit ".") (name e) = false)
    end.
Proof.
  unfold getFileCompletions.
  destruct (split_at_last_sep partial) as [[d p]|] eqn:E.
  - destruct (split_at_last_sep_some _ _ _ E) as [Hs Hp].
    destruct (split_at_last_sep_dir _ _ _ E) as [d' [c [Hd Hc]]].
    destruct d as [|x d0]; [destruct d'; discriminate Hd|].
    destruct (readdir (if is_absolute (x :: d0) then x :: d0 else resolve cwd (x :: d0)))
      as [es|] eqn:Er; cbv beta iota;
      (exists (x :: d0); split; [exact Hs|split; [exact Hp|split;
         [right; exists d', c; split; assumption|]]]); cbv beta iota; rewrite Er;
      [|reflexivity].
    intros h; apply completion_entries_iff.
  - pose proof (split_at_last_sep_none _ E) as Hp.
    destruct (readdir cwd) as [es|] eqn:Er; cbv beta iota;
      (exists []; split; [reflexivity|split; [exact Hp|split; [left; reflexivity|]]]);
      cbv beta iota; rewrite Er; [|reflexivity].
    intros h; apply completion_entries_iff.
Qed.

(** X11: completing a first word (no space yet) offers each command once,
    only commands starting with the typed text, and every built-in basic
    command that starts with it; the typed text is what gets replaced. *)
Theorem X11_command_completion readdir listdir PATH cwd line :
  ~ In sp line ->
  let '(hits, lastPart) := completer readdir listdir PATH cwd line in
  lastPart = line /\ NoDup hits /\
  (forall h, In h hits -> starts_with line h = true) /\
  (forall b, In b basicCommands -> starts_with line b = true -> In b hits).
Proof.
  intros Hl; unfold completer; cbv zeta.
  rewrite (split_on_single sp line Hl); simpl.
  destruct (set_of_spec (basicCommands ++ getPathCommands listdir PATH)) as [Hnd Hin].
  split; [reflexivity|]; split; [apply NoDup_filter; exact Hnd|]; split.
  - intros h Hh; apply filter_In in Hh; exact (proj2 Hh).
  - intros b Hb Hs; apply filter_In; split; [|exact Hs].
    apply Hin, in_or_app; left; exact Hb.
Qed.

Lemma X11_command_completion_witness :
  ~ In sp (lit "ca") /\
  let '(hits, lastPart) :=
    completer (fun _ => None) (fun _ => Some [mkStat (lit "cat") true 493%Z])
      (Some (lit "/bin")) (lit "/w") (lit "ca") in
  lastPart = lit "ca" /\ NoDup hits /\
  (forall h, In h hits -> starts_with (lit "ca") h = true) /\
  (forall b, In b basicCommands -> starts_with (lit "ca") b = true -> In b hits).
Proof.
  assert (H : ~ In sp (lit "ca"))
    by (simpl; intros [E|[E|[]]]; discriminate E).
  split; [exact H|].
  exact (X11_command_completion (fun _ => None)
           (fun _ => Some [mkStat (lit "cat") true 493%Z]) (Some (lit "/bin"))
           (lit "/w") (lit "ca") H).
Defined.

(** X12: [getPathCommands] returns at most 50 names, without repetition,
    each of them an executable regular file ([mode & 0o111] non-zero) of a
    non-empty [PATH] entry. *)
Theorem X12_path_commands listdir PATH :
  let cmds := getPathCommands listdir PATH in
  List.length cmds <= 50 /\ NoDup cmds /\
  forall c, In c cmds ->
    exists dirPath files st,
      In dirPath (split_on ":"%char (match PATH with Some v => v | None => [] end)) /\
      dirPath <> [] /\ listdir dirPath = Some files /\ In st files /\
      isFile st = true /\ Z.land (mode st) 73 <> 0%Z /\ file st = c.
Proof.
  cbv zeta; unfold getPathCommands; cbv zeta.
  match goal with |- context [set_of ?l] => destruct (set_of_spec l) as [Hnd Hin] end.
  split; [rewrite length_firstn; lia|]; split; [apply NoDup_firstn'; exact Hnd|].
  intros c Hc; apply in_firstn', Hin in Hc.
  apply in_flat_map in Hc as [d [Hd Hc]].
  apply filter_In in Hd as [Hd Hne].
  destruct (listdir d) as [files|] eqn:E; [|destruct Hc].
  apply in_map_iff in Hc as [st [Hf Hst]]; apply filter_In in Hst as [Hst Hx].
  unfold is_executable in Hx; apply andb_prop in Hx as [Hx1 Hx2].
  exists d, files, st; repeat split; try assumption.
  - intros E'; rewrite E' in Hne; discriminate Hne.
  - intros E'; rewrite E' in Hx2; discriminate Hx2.
Qed.

(** ** Properties of the shell configuration and environment detection *)

Lemma first_accessible_some acc l sh :
  first_accessible acc l = Some sh -> In sh l /\ acc sh = true.
Proof.
  induction l as [|x l IH]; simpl; [discriminate|].
  destruct (acc x) eqn:E; [intros H; injection H as <-; auto|].
  intros H; destruct (IH H); auto.
Qed.

(** The shell picked on macOS and Linux when [$SHELL] is unset or empty. *)
Lemma fallback_shell acc :
  let cfg := match first_accessible acc fallbackShells with
             | Some sh => mkShellCfg sh [lit "-c"]
             | None => mkShellCfg (lit "/bin/sh") [lit "-c"]
             end in
  args cfg = [lit "-c"] /\ In (shell cfg) fallbackShells /\
  (acc (shell cfg) = true \/ shell cfg = lit "/bin/sh") /\
  (acc (lit "/bin/zsh") = true -> shell cfg = lit "/bin/zsh").
Proof.
  cbv zeta; destruct (first_accessible acc fallbackShells) as [sh|] eqn:E.
  - destruct (first_accessible_some _ _ _ E) as [H1 H2]; simpl.
    repeat split; [exact H1|left; exact H2|].
    intros Hz; simpl in E; rewrite Hz in E; injection E as <-; reflexivity.
  - simpl; repeat split; [right; right; left; reflexivity|right; reflexivity|].
    intros Hz; simpl in E; rewrite Hz in E; discriminate E.
Qed.

(** X13: outside Windows commands always run as [shell -c command], with
    [$SHELL] whenever it is set and non-empty; on macOS and Linux without
    it, the shell is an accessible one of [/bin/zsh], [/bin/bash], [/bin/sh]
    ([/bin/zsh] whenever accessible), or [/bin/sh] when none is. *)
Theorem X13_posix_shell platform SHELL ComSpec accessible :
  platform <> Win32 ->
  let cfg := getShellConfig platform SHELL ComSpec accessible in
  args cfg = [lit "-c"] /\
  (forall u, SHELL = Some u -> u <> [] -> shell cfg = u) /\
  (platform <> OtherPlatform -> truthy SHELL = false ->
     In (shell cfg) fallbackShells /\
     (accessible (shell cfg) = true \/ shell cfg = lit "/bin/sh") /\
     (accessible (lit "/bin/zsh") = true -> shell cfg = lit "/bin/zsh")).
Proof.
  intros Hp; cbv zeta.
  destruct (fallback_shell accessible) as [Ha Hf].
  destruct platform; [contradiction Hp; reflexivity| | |];
    destruct SHELL as [[|a u]|]; unfold getShellConfig;
    try (split; [exact Ha|split; [intros u0 E Hn; injection E as <-; congruence
                                 |intros _ _; exact Hf]]);
    try (split; [exact Ha|split; [intros u0 E Hn; discriminate E
                                 |intros _ _; exact Hf]]);
    try (split; [reflexivity|split;
           [intros u0 E _; injection E as <-; reflexivity
           |intros _ H; discriminate H]]);
    try (split; [reflexivity|split;
           [intros u0 E Hn; first [injection E as <-; congruence | discriminate E]
           |intros H; contradiction H; reflexivity]]).
Qed.

Lemma X13_posix_shell_witness :
  Linux <> Win32 /\
  let cfg := getShellConfig Linux None None (fun sh => str_eqb sh (lit "/bin/bash")) in
  args cfg = [lit "-c"] /\
  (forall u, None = Some u -> u <> [] -> shell cfg = u) /\
  (Linux <> OtherPlatform -> truthy None = false ->
     In (shell cfg) fallbackShells /\
     ((fun sh => str_eqb sh (lit "/bin/bash")) (shell cfg) = true \/
      shell cfg = lit "/bin/sh") /\
     ((fun sh => str_eqb sh (lit "/bin/bash")) (lit "/bin/zsh") = true ->
      shell cfg = lit "/bin/zsh")).
Proof.
  split; [discriminate|].
  apply (X13_posix_shell Linux None None (fun sh => str_eqb sh (lit "/bin/bash"))).
  discriminate.
Defined.

Lemma has_In (files : list str) x : has files x = true <-> In x files.
Proof. unfold has; apply existsb_str_eqb. Qed.

(** X14: an active Python environment (any of [VIRTUAL_ENV],
    [CONDA_DEFAULT_ENV], [POETRY_ACTIVE], [PIPENV_ACTIVE] set and non-empty)
    is reported as such whatever the directory holds: its name and path come
    from [VIRTUAL_ENV] (or the conda name), never from a local folder. *)
Theorem X14_active_python_env cwd files isDir V C P Pi :
  truthy V || truthy C || truthy P || truthy Pi = true ->
  let pe := detectPythonEnvironment cwd files isDir V C P Pi in
  isVirtualEnv pe = true /\
  envPath pe = (if truthy V then V else None) /\
  envName pe = match V with
               | Some ((_ :: _) as v) => Some (basename v)
               | _ => match C with Some ((_ :: _) as c) => Some c | _ => None end
               end.
Proof.
  intros H; cbv zeta; unfold detectPythonEnvironment; cbv zeta.
  destruct V as [[|a v]|]; destruct C as [[|b c]|];
    destruct (truthy P); destruct (truthy Pi); simpl in H |- *; try discriminate H;
    destruct (python_project files); simpl; repeat split.
Qed.

Lemma venv_scan_inv cwd files isDir (L : list str) (pe : PythonEnv) :
  incl L commonVenvNames ->
  python_project files = true ->
  let inv pe := isVirtualEnv pe = false /\ envType pe = None /\
    ((envName pe = None /\ envPath pe = None) \/
     exists n, envName pe = Some n /\ envPath pe = Some (path_join cwd n) /\
       In n commonVenvNames /\ In n files /\ isDir (path_join cwd n) = true) in
  inv pe ->
  inv (fold_left (fun pe venvName =>
                    if has files venvName then
                      let venvPath := path_join cwd venvName in
                      if isDir venvPath
                      then mkPythonEnv (isVirtualEnv pe) (envType pe) (Some venvName)
                             (Some venvPath)
                      else pe
                    else pe) L pe).
Proof.
  intros HL Hpr; cbv zeta; revert pe HL; induction L as [|n L IH]; intros pe HL Hpe;
    simpl; [exact Hpe|].
  apply IH; [intros x Hx; apply HL; right; exact Hx|].
  destruct (has files n) eqn:Eh; [|exact Hpe].
  destruct (isDir (path_join cwd n)) eqn:Ed; [|exact Hpe].
  destruct Hpe as [H1 [H2 _]]; simpl; split; [exact H1|split; [exact H2|]].
  right; exists n; repeat split; try assumption.
  - apply HL; left; reflexivity.
  - apply has_In; exact Eh.
Qed.

(** X15: with no Python environment active, the result is never marked as
    a virtual environment; a reported environment is one of [venv], [env],
    [.venv], [.env] that is present and a directory, in a directory with a
    Python project file, and its path is that folder. *)
Theorem X15_local_venv cwd files isDir V C P Pi :
  truthy V = false -> truthy C = false -> truthy P = false -> truthy Pi = false ->
  let pe := detectPythonEnvironment cwd files isDir V C P Pi in
  isVirtualEnv pe = false /\ envType pe = None /\
  ((envName pe = None /\ envPath pe = None) \/
   exists n, envName pe = Some n /\ envPath pe = Some (path_join cwd n) /\
     In n commonVenvNames /\ In n files /\ isDir (path_join cwd n) = true /\
     python_project files = true).
Proof.
  intros HV HC HP HPi; cbv zeta; unfold detectPythonEnvironment; cbv zeta.
  replace (match V with
           | Some ((_ :: _) as v) => _ | _ => _ end)
    with (mkPythonEnv false None None None)
    by (destruct V as [[|a v]|]; [|discriminate HV|];
        destruct C as [[|b c]|]; try discriminate HC; simpl; rewrite HP, HPi;
        reflexivity).
  destruct (python_project files) eqn:Epr; simpl;
    [|split; [reflexivity|split; [reflexivity|left; split; reflexivity]]].
  destruct (venv_scan_inv cwd files isDir commonVenvNames (mkPythonEnv false None None None)
              (fun x Hx => Hx) Epr) as [H1 [H2 H3]];
    [split; [reflexivity|split; [reflexivity|left; split; reflexivity]]|].
  split; [exact H1|split; [exact H2|]].
  destruct H3 as [H3|[n [E1 [E2 [E3 [E4 E5]]]]]]; [left; exact H3|].
  right; exists n; repeat split; assumption.
Qed.

(** X16: the package manager is unknown exactly when none of [yarn.lock],
    [pnpm-lock.yaml], [package-lock.json], [package.json] is present, and it
    is [yarn] whenever [yarn.lock] is, whatever else is there. *)
Theorem X16_package_manager files :
  (packageManager (detectNodeEnvironment files) = None <->
   ~ In (lit "yarn.lock") files /\ ~ In (lit "pnpm-lock.yaml") files /\
   ~ In (lit "package-lock.json") files /\ ~ In (lit "package.json") files) /\
  (In (lit "yarn.lock") files ->
   packageManager (detectNodeEnvironment files) = Some (lit "yarn")).
Proof.
  unfold detectNodeEnvironment; cbv zeta; cbn [packageManager].
  rewrite <- !has_In.
  destruct (has files (lit "yarn.lock")); destruct (has files (lit "pnpm-lock.yaml"));
    destruct (has files (lit "package-lock.json")); destruct (has files (lit "package.json"));
    simpl; intuition congruence.
Qed.

Lemma X14_active_python_env_witness :
  let V := Some (lit "/home/u/proj/.venv") in
  (truthy V || truthy None || truthy None || truthy None = true) /\
  let pe := detectPythonEnvironment (lit "/w") [lit "setup.py"; lit "venv"]
              (fun _ => true) V None None None in
  isVirtualEnv pe = true /\
  envPath pe = (if truthy V then V else None) /\
  envName pe = match V with
               | Some ((_ :: _) as v) => Some (basename v)
               | _ => match (None : option str) with
                      | Some ((_ :: _) as c) => Some c | _ => None end
               end.
Proof.
  cbv zeta; split; [reflexivity|].
  apply (X14_active_python_env (lit "/w") [lit "setup.py"; lit "venv"] (fun _ => true)
           (Some (lit "/home/u/proj/.venv")) None None None).
  reflexivity.
Defined.

Lemma X15_local_venv_witness :
  let pe := detectPythonEnvironment (lit "/w") [lit "setup.py"; lit "venv"]
              (fun _ => true) None None None None in
  isVirtualEnv pe = false /\ envType pe = None /\
  ((envName pe = None /\ envPath pe = None) \/
   exists n, envName pe = Some n /\ envPath pe = Some (path_join (lit "/w") n) /\
     In n commonVenvNames /\ In n [lit "setup.py"; lit "venv"] /\
     (fun _ => true) (path_join (lit "/w") n) = true /\
     python_project [lit "setup.py"; lit "venv"] = true).
Proof.
  apply (X15_local_venv (lit "/w") [lit "setup.py"; lit "venv"] (fun _ => true)
           None None None None); reflexivity.
Defined.

Lemma strip_prefix_app (p x : str) : strip_prefix p (p ++ x) = Some x.
Proof. induction p as [|a p IH]; simpl; [reflexivity|rewrite eqb_refl_ascii; exact IH]. Qed.

Lemma strip_prefix_starts (p s x : str) :
  strip_prefix p s = Some x -> starts_with p s = true.
Proof.
  revert s; induction p as [|a p IH]; intros [|b s] H; simpl in *; try reflexivity;
    try discriminate.
  destruct (Ascii.eqb a b); [exact (IH s H)|discriminate].
Qed.

Lemma rest_of_line_app (b r : str) :
  Forall (fun c => is_line_terminator c = false) b ->
  rest_of_line (b ++ nl :: r) = b.
Proof.
  induction b as [|c b IH]; intros H; simpl; [reflexivity|].
  inversion H as [|? ? Hc Hb]; subst; rewrite Hc, IH by exact Hb; reflexivity.
Qed.

Lemma match_ref_unfold (s : str) :
  match_ref s =
  match match strip_prefix (lit "ref: refs/heads/") s with
        | Some rest => match rest_of_line rest with [] => None | cap => Some cap end
        | None => None
        end with
  | Some cap => Some cap
  | None => match s with [] => None | _ :: r => match_ref r end
  end.
Proof. destruct s; reflexivity. Qed.

Lemma match_ref_includes (s m : str) :
  match_ref s = Some m -> includes (lit "ref: refs/heads/") s = true.
Proof.
  induction s as [|c s IH]; intros H; rewrite match_ref_unfold in H.
  - discriminate H.
  - destruct (strip_prefix (lit "ref: refs/heads/") (c :: s)) as [rest|] eqn:E.
    + unfold includes; rewrite (strip_prefix_starts _ _ _ E); reflexivity.
    + unfold includes; fold includes; rewrite (IH H), orb_true_r; reflexivity.
Qed.

(** X17: when [git branch --show-current] fails, a [.git/HEAD] of the form
    [ref: refs/heads/<b>] followed by a newline yields the branch [b] (a
    non-empty name without line breaks or surrounding white space); a HEAD
    without [ref: refs/heads/] (a detached HEAD) yields no branch. *)
Theorem X17_head_branch (b content : str) :
  b <> [] -> Forall (fun c => is_line_terminator c = false) b -> trim b = b ->
  detectGitEnvironment true None (Some (lit "ref: refs/heads/" ++ b ++ [nl])) =
    mkGitEnv true (Some b) /\
  (includes (lit "ref: refs/heads/") content = false ->
   detectGitEnvironment true None (Some content) = mkGitEnv true None).
Proof.
  intros Hne Hb Ht; split.
  - unfold detectGitEnvironment; rewrite match_ref_unfold, strip_prefix_app.
    rewrite rest_of_line_app by exact Hb.
    destruct b as [|c b']; [contradiction Hne; reflexivity|].
    rewrite <- Ht at 2; reflexivity.
  - intros Hi; unfold detectGitEnvironment.
    destruct (match_ref content) as [m|] eqn:E; [|reflexivity].
    rewrite (match_ref_includes _ _ E) in Hi; discriminate Hi.
Qed.

Lemma X17_head_branch_witness :
  detectGitEnvironment true None (Some (lit "ref: refs/heads/" ++ lit "main" ++ [nl])) =
    mkGitEnv true (Some (lit "main")) /\
  (includes (lit "ref: refs/heads/") (lit "4b825dc") = false ->
   detectGitEnvironment true None (Some (lit "4b825dc")) = mkGitEnv true None).
Proof.
  apply (X17_head_branch (lit "main") (lit "4b825dc")).
  - discriminate.
  - repeat constructor.
  - reflexivity.
Defined.

(** ** Properties of the AI reply cleanup *)

Lemma strip_fences_nontick (x : ascii) (r : str) :
  Ascii.eqb x tick = false -> strip_fences (x :: r) = x :: strip_fences r.
Proof.
  intros Hx; destruct r as [|b [|c r]]; [reflexivity|reflexivity|].
  change (strip_fences (x :: b :: c :: r)) with
    (if ticks x b c
     then match r with
          | y :: r' => if Ascii.eqb y nl then strip_fences r' else strip_fences r
          | [] => []
          end
     else x :: strip_fences (b :: c :: r)).
  unfold ticks; rewrite Hx; reflexivity.
Qed.

Lemma strip_fences_tick (y : ascii) (r : str) :
  Ascii.eqb y tick = false ->
  strip_fences (tick :: y :: r) = tick :: y :: strip_fences r.
Proof.
  intros Hy; destruct r as [|c r]; [reflexivity|].
  change (strip_fences (tick :: y :: c :: r)) with
    (if ticks tick y c
     then match r with
          | z :: r' => if Ascii.eqb z nl then strip_fences r' else strip_fences r
          | [] => []
          end
     else tick :: strip_fences (y :: c :: r)).
  unfold ticks; rewrite Hy, andb_false_r, andb_false_l.
  rewrite strip_fences_nontick by exact Hy; reflexivity.
Qed.

Lemma has_fence_cons (a : ascii) (u : str) :
  has_fence u = false ->
  (Ascii.eqb a tick = true -> forall u', u <> tick :: tick :: u') ->
  has_fence (a :: u) = false.
Proof.
  intros Hu Hn; destruct u as [|b [|c u]]; [reflexivity|reflexivity|].
  change (has_fence (a :: b :: c :: u)) with (ticks a b c || has_fence (b :: c :: u)).
  rewrite Hu, orb_false_r; unfold ticks.
  destruct (Ascii.eqb a tick) eqn:Ea; [|reflexivity].
  destruct (Ascii.eqb b tick) eqn:Eb; [|rewrite andb_false_r; reflexivity].
  destruct (Ascii.eqb c tick) eqn:Ec; [|rewrite andb_false_r; reflexivity].
  apply Ascii.eqb_eq in Eb, Ec; subst b c; contradiction (Hn eq_refl u); reflexivity.
Qed.

(** [s.replace(/```\n?/g, '')] leaves no fence behind. *)
Lemma strip_fences_no_fence (s : str) : has_fence (strip_fences s) = false.
Proof.
  remember (List.length s) as n eqn:En; assert (Hl : List.length s <= n) by lia;
    clear En; revert s Hl.
  induction n as [|n IH]; intros s Hl.
  - destruct s; [reflexivity|simpl in Hl; lia].
  - destruct s as [|a [|b [|c r]]]; [reflexivity|reflexivity|reflexivity|].
    simpl in Hl.
    change (strip_fences (a :: b :: c :: r)) with
      (if ticks a b c
       then match r with
            | y :: r' => if Ascii.eqb y nl then strip_fences r' else strip_fences r
            | [] => []
            end
       else a :: strip_fences (b :: c :: r)).
    destruct (ticks a b c) eqn:Et.
    + destruct r as [|y r']; [reflexivity|].
      destruct (Ascii.eqb y nl); apply IH; simpl in Hl |- *; lia.
    + apply has_fence_cons; [apply IH; simpl; lia|].
      intros Ea u' E; unfold ticks in Et; rewrite Ea in Et; simpl in Et.
      destruct (Ascii.eqb b tick) eqn:Eb.
      * apply Ascii.eqb_eq in Eb; subst b; simpl in Et.
        rewrite strip_fences_tick in E by exact Et.
        injection E as E1; rewrite E1 in Et; discriminate Et.
      * rewrite strip_fences_nontick in E by exact Eb.
        injection E as E1; rewrite E1 in Eb; discriminate Eb.
Qed.

Lemma strip_fences_id (s : str) : ~ In tick s -> strip_fences s = s.
Proof.
  induction s as [|a s IH]; intros H; [reflexivity|].
  assert (Ha : Ascii.eqb a tick = false)
    by (apply Ascii.eqb_neq; intros ->; apply H; left; reflexivity).
  rewrite strip_fences_nontick by exact Ha.
  rewrite IH; [reflexivity|intros Hin; apply H; right; exact Hin].
Qed.

Lemma strip_json_fences_id (s : str) : ~ In tick s -> strip_json_fences s = s.
Proof.
  induction s as [|a s IH]; intros H; [reflexivity|].
  assert (Ha : Ascii.eqb a tick = false)
    by (apply Ascii.eqb_neq; intros ->; apply H; left; reflexivity).
  assert (Hs : strip_json_fences s = s) by (apply IH; intros Hin; apply H; right; exact Hin).
  destruct s as [|b [|c [|j [|s' [|o [|n r]]]]]]; try reflexivity;
    try (simpl; rewrite <- Hs at 2; reflexivity).
  change (strip_json_fences (a :: b :: c :: j :: s' :: o :: n :: r)) with
    (if ticks a b c && Ascii.eqb j "j"%char && Ascii.eqb s' "s"%char &&
        Ascii.eqb o "o"%char && Ascii.eqb n "n"%char
     then match r with
          | x :: r' => if Ascii.eqb x nl then strip_json_fences r' else strip_json_fences r
          | [] => []
          end
     else a :: strip_json_fences (b :: c :: j :: s' :: o :: n :: r)).
  unfold ticks; rewrite Ha, !andb_false_l, Hs; reflexivity.
Qed.

(** X18: the text [parseAiResponse] hands to [JSON.parse] contains no
    Markdown fence [```], whatever the reply; a reply without backquotes is
    only trimmed. *)
Theorem X18_fences_removed (responseText : str) :
  has_fence (cleanAiText responseText) = false /\
  (~ In tick (trim responseText) -> cleanAiText responseText = trim responseText).
Proof.
  split; [apply strip_fences_no_fence|].
  intros H; unfold cleanAiText; rewrite strip_json_fences_id by exact H.
  apply strip_fences_id; exact H.
Qed.

(** ** Properties of the Gemini key handling *)

Lemma drop_ws_idem (s : str) : drop_ws (drop_ws s) = drop_ws s.
Proof.
  induction s as [|c s IH]; [reflexivity|simpl].
  destruct (is_ws c) eqn:E; [exact IH|simpl; rewrite E; reflexivity].
Qed.

Lemma drop_ws_nlw_id (s : str) : no_leading_ws s = true -> drop_ws s = s.
Proof.
  destruct s as [|c s]; [reflexivity|simpl; intros H].
  destruct (is_ws c); [discriminate H|reflexivity].
Qed.

Lemma nlw_drop_ws (s : str) : no_leading_ws (drop_ws s) = true.
Proof.
  induction s as [|c s IH]; [reflexivity|simpl].
  destruct (is_ws c) eqn:E; [exact IH|simpl; rewrite E; reflexivity].
Qed.

Lemma drop_ws_suffix (s : str) : exists p, s = p ++ drop_ws s.
Proof.
  induction s as [|c s [p IH]]; [exists []; reflexivity|simpl].
  destruct (is_ws c); [exists (c :: p); simpl; rewrite <- IH; reflexivity|].
  exists []; reflexivity.
Qed.

Lemma nlw_prefix (v w : str) : no_leading_ws (v ++ w) = true -> no_leading_ws v = true.
Proof. destruct v; [reflexivity|exact (fun H => H)]. Qed.

(** [s.trim().trim() = s.trim()]. *)
Lemma trim_idem (s : str) : trim (trim s) = trim s.
Proof.
  unfold trim at 2 3.
  set (u := drop_ws s); set (d := drop_ws (rev u)).
  assert (Hd : no_leading_ws (rev d) = true).
  { destruct (drop_ws_suffix (rev u)) as [p Hp].
    apply (nlw_prefix _ (rev p)); rewrite <- rev_app_distr.
    fold d in Hp; rewrite <- Hp, rev_involutive; apply nlw_drop_ws. }
  unfold trim; rewrite (drop_ws_nlw_id _ Hd), rev_involutive; unfold d.
  rewrite drop_ws_idem; reflexivity.
Qed.

Lemma promptForApiKey_timers (t : nat) answers :
  In (t + 60) (snd (promptForApiKey t answers)) /\
  Forall (fun x => t + 60 <= x) (snd (promptForApiKey t answers)).
Proof.
  revert t; induction answers as [|[d a] answers IH]; intros t; simpl.
  - split; [left; reflexivity|repeat constructor].
  - destruct (trim a) as [|c k]; simpl.
    + destruct (IH (t + d)) as [_ H2].
      destruct (promptForApiKey (t + d) answers) as [r timers]; simpl in *.
      split; [left; reflexivity|constructor; [lia|]].
      eapply Forall_impl; [|exact H2]; intros x Hx; cbv beta in *; lia.
    + split; [left; reflexivity|repeat constructor].
Qed.

(** X19: [promptForApiKey] only ever resolves with a non-empty key without
    surrounding white space, at or after the time it asked. *)
Theorem X19_prompted_key_trimmed (t t' : nat) answers (k : str) :
  fst (promptForApiKey t answers) = Some (k, t') ->
  k <> [] /\ trim k = k /\ t <= t'.
Proof.
  revert t; induction answers as [|[d a] answers IH]; intros t H; simpl in H;
    [discriminate H|].
  destruct (trim a) as [|c k0] eqn:E.
  - destruct (promptForApiKey (t + d) answers) as [r timers] eqn:Ep; simpl in H.
    assert (Hr : fst (promptForApiKey (t + d) answers) = Some (k, t'))
      by (rewrite Ep; exact H).
    destruct (IH _ Hr) as [H1 [H2 H3]]; repeat split; [exact H1|exact H2|lia].
  - simpl in H; injection H as <- <-; repeat split; [discriminate| |lia].
    rewrite <- E; apply trim_idem.
Qed.

Lemma X19_prompted_key_trimmed_witness :
  fst (promptForApiKey 0 [(3, lit " "); (10, lit " AIza-key ")]) = Some (lit "AIza-key", 13) /\
  lit "AIza-key" <> [] /\ trim (lit "AIza-key") = lit "AIza-key" /\ 0 <= 13.
Proof.
  assert (H : fst (promptForApiKey 0 [(3, lit " "); (10, lit " AIza-key ")]) =
              Some (lit "AIza-key", 13)) by reflexivity.
  split; [exact H|exact (X19_prompted_key_trimmed 0 13 _ _ H)].
Defined.

(** X20: when neither [GEMINI_API_KEY] nor a saved key is available, the
    prompt arms a timer calling [process.exit(1)] 60 s after the first
    question, and no timer expires earlier: the program is terminated then
    even when a valid key was entered in time.  With a key available no
    timer is armed. *)
Theorem X20_prompt_exit_timer env file (t0 : nat) answers :
  let '(r, timers) := ensureGeminiApiKey env file t0 answers in
  ((truthy env = true \/ loadSavedApiKey file <> None) -> timers = []) /\
  (truthy env = false -> loadSavedApiKey file = None ->
   In (t0 + 60) timers /\ Forall (fun x => t0 + 60 <= x) timers).
Proof.
  unfold ensureGeminiApiKey.
  destruct env as [[|a e]|]; [| |];
    destruct (loadSavedApiKey file) as [k|] eqn:El;
    try (split; [reflexivity|intros H; discriminate H]);
    try (split; [reflexivity|intros _ H; discriminate H]);
    (destruct (promptForApiKey_timers t0 answers) as [H1 H2];
     destruct (promptForApiKey t0 answers) as [r timers]; simpl in H1, H2;
     split; [intros [H|H]; [discriminate H|contradiction H; reflexivity]
            |intros _ _; split; assumption]).
Qed.

Lemma lookup_set_prop_same (k v : str) (c : Cfg) : lookup k (set_prop k v c) = Some v.
Proof.
  unfold set_prop, lookup.
  destruct (existsb (fun kv => str_eqb (fst kv) k) c) eqn:E.
  - induction c as [|[k0 v0] c IH]; simpl in *; [discriminate E|].
    destruct (str_eqb k0 k) eqn:Ek; simpl; [rewrite str_eqb_refl; reflexivity|].
    rewrite Ek; exact (IH E).
  - induction c as [|[k0 v0] c IH]; simpl in *; [rewrite str_eqb_refl; reflexivity|].
    apply orb_false_iff in E as [E1 E2]; rewrite E1; exact (IH E2).
Qed.

Lemma lookup_set_prop_other (k k' v : str) (c : Cfg) :
  k <> k' -> lookup k (set_prop k' v c) = lookup k c.
Proof.
  intros Hk; unfold set_prop, lookup.
  assert (Hkk : str_eqb k' k = false)
    by (unfold str_eqb; destruct (list_eq_dec ascii_dec k' k); congruence).
  destruct (existsb (fun kv => str_eqb (fst kv) k') c).
  - induction c as [|[k0 v0] c IH]; simpl; [reflexivity|].
    destruct (str_eqb k0 k') eqn:E0; simpl.
    + apply str_eqb_true in E0; subst k0; rewrite Hkk; exact IH.
    + destruct (str_eqb k0 k); [reflexivity|exact IH].
  - induction c as [|[k0 v0] c IH]; simpl; [rewrite Hkk; reflexivity|].
    destruct (str_eqb k0 k); [reflexivity|exact IH].
Qed.

(** X21: a non-empty key saved by [saveApiKey] is what [loadSavedApiKey]
    reads back, so the next start takes it without prompting (no exit timer
    armed), whatever the configuration held before. *)
Theorem X21_saved_key_reused file (apiKey now : str) (t0 : nat) answers :
  apiKey <> [] ->
  loadSavedApiKey (Some (saveApiKey file apiKey now)) = Some apiKey /\
  ensureGeminiApiKey None (Some (saveApiKey file apiKey now)) t0 answers =
    (Some (apiKey, t0), []).
Proof.
  intros Hk.
  assert (H : loadSavedApiKey (Some (saveApiKey file apiKey now)) = Some apiKey).
  { unfold loadSavedApiKey, saveApiKey.
    rewrite lookup_set_prop_other by discriminate.
    rewrite lookup_set_prop_same.
    destruct apiKey; [contradiction Hk; reflexivity|reflexivity]. }
  split; [exact H|unfold ensureGeminiApiKey; rewrite H; reflexivity].
Qed.

Lemma X21_saved_key_reused_witness :
  lit "AIza-key" <> [] /\
  loadSavedApiKey (Some (saveApiKey None (lit "AIza-key") (lit "2026-10-15"))) =
    Some (lit "AIza-key") /\
  ensureGeminiApiKey None (Some (saveApiKey None (lit "AIza-key") (lit "2026-10-15"))) 0 [] =
    (Some (lit "AIza-key", 0), []).
Proof.
  assert (H : lit "AIza-key" <> []) by discriminate.
  split; [exact H|exact (X21_saved_key_reused None _ _ 0 [] H)].
Defined.

(** X22: [clearSavedApiKey] removes the key, so the next start has to
    prompt, and keeps every other setting of the file. *)
Theorem X22_clear_key (c : Cfg) :
  exists c', clearSavedApiKey (Some c) = Some c' /\
    loadSavedApiKey (Some c') = None /\
    forall k, k <> geminiApiKey -> lookup k c' = lookup k c.
Proof.
  eexists; split; [reflexivity|split].
  - unfold loadSavedApiKey, lookup.
    induction c as [|[k0 v0] c IH]; simpl; [reflexivity|].
    destruct (str_eqb k0 geminiApiKey) eqn:E; simpl; [exact IH|rewrite E; exact IH].
  - intros k Hk; unfold lookup.
    induction c as [|[k0 v0] c IH]; simpl; [reflexivity|].
    destruct (str_eqb k0 geminiApiKey) eqn:E; simpl.
    + apply str_eqb_true in E; subst k0.
      assert (Hkk : str_eqb geminiApiKey k = false)
        by (unfold str_eqb; destruct (list_eq_dec ascii_dec geminiApiKey k); congruence).
      rewrite Hkk; exact IH.
    + destruct (str_eqb k0 k); [reflexivity|exact IH].
Qed.

(** ** A property of the history file *)

Lemma split_on_no_sep (d : ascii) (s : str) : Forall (fun p => ~ In d p) (split_on d s).
Proof.
  induction s as [|c s IH]; simpl; [repeat constructor; intros []|].
  destruct (Ascii.eqb c d) eqn:E; [constructor; [intros []|exact IH]|].
  assert (Hc : c <> d) by (intros ->; rewrite eqb_refl_ascii in E; discriminate E).
  destruct (split_on d s) as [|p ps]; [repeat constructor; intros [H|[]]; congruence|].
  inversion IH as [|? ? Hp Hps]; subst.
  constructor; [intros [H|H]; [congruence|contradiction]|exact Hps].
Qed.

(** X23: whatever the history file holds, [loadHistory] yields only
    non-empty, single-line commands. *)
Theorem X23_loaded_entries content (h : list str) :
  Forall (fun c => c <> [] /\ ~ In nl c) (loadHistory (Some content) h).
Proof.
  unfold loadHistory; apply Forall_rev.
  pose proof (split_on_no_sep nl (trim content)) as H.
  induction (split_on nl (trim content)) as [|p ps IH]; simpl; [constructor|].
  inversion H as [|? ? Hp Hps]; subst.
  unfold str_eqb at 1; destruct (list_eq_dec ascii_dec p []) as [E|E]; simpl;
    [exact (IH Hps)|constructor; [split; assumption|exact (IH Hps)]].
Qed.
